(** * TradeMaxer: the trading engine and its message channel

    A shallow embedding of [trading_engine.cpp] / [trading_engine.h]
    (order, risk and portfolio state machine), of the data types of
    [data_types.h] and of the data path of [ipc_manager.cpp], together with
    the properties stated about them.  Around them: the reading of the
    environment file ([api.h], [main.cpp]), the accessors and the text
    helpers of [config_manager.cpp], and the price update of
    [main_new.cpp].

    Conventions of the embedding.
    - A C++ [double] is idealised as an exact rational ([Q]); rounding,
      infinities and NaN are outside the model.  [a > b] is [Qlt_bool b a],
      [a <= b] is [Qle_bool a b].
    - [std::string] is [string]; comparisons with literals are [String.eqb].
    - Fields keep their names, except that [symbol], [quantity], [price], ...
      of [Order], [Position] and [TradingSignal] carry the prefix [order_],
      [pos_] or [sig_] where two structs share a field name.
    - [std::map<std::string, T>] is [gmap string T]; wherever the source
      iterates over a map the model walks its entries in increasing key
      order, as [std::map] does.
    - Mutation of the engine object is explicit state passing: a method
      [void f(args)] becomes [f args : TradingEngine -> TradingEngine].
    - Where C++ leaves the behaviour of a call undefined the call has no
      result: [updatePositionPrices] returns an [option], and [None] stands
      for the erasure of the map entry that its loop is visiting.
    - The clock ([std::time], [system_clock::now]) and the random draw of
      the fill simulator are inputs collected in [Env].
    - Console output and the calls to the database collaborator do not feed
      back into the engine state and are left out.
    - A file is the text it holds, or [None] when it cannot be opened; the
      rows the database returns for a symbol are an input. *)

From Stdlib Require Import QArith ZArith String Ascii Lia Lqa.
From stdpp Require Import gmap strings list fin_maps pretty sorting.

Open Scope Q_scope.

(** ** Numbers *)

(** [x < y] on doubles, as a boolean. *)
Definition Qlt_bool (x y : Q) : bool :=
  (Qnum x * QDen y <? Qnum y * QDen x)%Z.

(** [std::min] on doubles: [(b < a) ? b : a]. *)
Definition Qmin_std (a b : Q) : Q := if Qlt_bool b a then b else a.

(** Two's complement wrap-around of a 32-bit [int]. *)
Definition wrap_int32 (z : Z) : Z := ((z + 2^31) mod 2^32 - 2^31)%Z.

(** ** Data types ([data_types.h]) *)

Record Position := mkPosition {
  pos_symbol : string;
  pos_quantity : Q;
  entry_price : Q;
  current_price : Q;
  unrealized_pnl : Q;
  entry_time : Z
}.

Record Order := mkOrder {
  order_id : string;
  order_symbol : string;
  order_side : string;        (* "BUY" or "SELL" *)
  order_quantity : Q;
  order_price : Q;
  order_type : string;        (* "MARKET", "LIMIT" *)
  order_status : string;      (* "PENDING", "FILLED", "CANCELLED" *)
  order_timestamp : Z
}.

Record TradingSignal := mkSignal {
  sig_symbol : string;
  confidence : Q;
  action : string;            (* "BUY", "SELL", "HOLD" *)
  suggested_position_size : Q;
  sig_timestamp : Z
}.

(** ** Engine state ([trading_engine.h]) *)

Inductive TradingMode := PAPER | LIVE.

Record Portfolio := mkPortfolio {
  cash_balance : Q;
  total_value : Q;
  positions : gmap string Position
}.

Record TradingEngine := mkEngine {
  mode : TradingMode;
  portfolio : Portfolio;
  max_position_size : Q;
  max_drawdown : Q;
  stop_loss_percentage : Q;
  take_profit_percentage : Q;
  initial_balance : Q;
  peak_balance : Q;
  pending_orders : gmap string Order;
  filled_orders : gmap string Order;
  order_counter : Z
}.

Record PaperTradingSimulator := mkSimulator {
  slippage_rate : Q;
  spread_rate : Q;
  fill_probability : Q
}.

(** What the environment supplies during one call into the engine. *)
Record Env := mkEnv {
  clock : Z;          (* std::time(nullptr), system_clock::now() *)
  uniform_draw : Q    (* dis(gen), a sample of [0,1) *)
}.

(** Entries of a [std::map] in iteration order. *)
Definition sorted_entries {V : Type} (m : gmap string V) : list (string * V) :=
  merge_sort (λ a b, String.le a.1 b.1) (map_to_list m).

Definition sorted_keys {V : Type} (m : gmap string V) : list string :=
  (sorted_entries m).*1.

(** [Portfolio::getEquity]. *)
Definition getEquity (p : Portfolio) : Q :=
  fold_left (λ equity sp, equity + pos_quantity sp.2 * current_price sp.2)
            (sorted_entries (positions p)) (cash_balance p).

(** Field updates of the engine object. *)
Definition set_portfolio (p : Portfolio) (e : TradingEngine) : TradingEngine :=
  mkEngine (mode e) p (max_position_size e) (max_drawdown e)
           (stop_loss_percentage e) (take_profit_percentage e)
           (initial_balance e) (peak_balance e)
           (pending_orders e) (filled_orders e) (order_counter e).

Definition set_peak_balance (x : Q) (e : TradingEngine) : TradingEngine :=
  mkEngine (mode e) (portfolio e) (max_position_size e) (max_drawdown e)
           (stop_loss_percentage e) (take_profit_percentage e)
           (initial_balance e) x
           (pending_orders e) (filled_orders e) (order_counter e).

Definition set_orders (pending filled : gmap string Order) (e : TradingEngine)
  : TradingEngine :=
  mkEngine (mode e) (portfolio e) (max_position_size e) (max_drawdown e)
           (stop_loss_percentage e) (take_profit_percentage e)
           (initial_balance e) (peak_balance e)
           pending filled (order_counter e).

Definition set_order_counter (n : Z) (e : TradingEngine) : TradingEngine :=
  mkEngine (mode e) (portfolio e) (max_position_size e) (max_drawdown e)
           (stop_loss_percentage e) (take_profit_percentage e)
           (initial_balance e) (peak_balance e)
           (pending_orders e) (filled_orders e) n.

(** [TradingEngine::TradingEngine(mode, initial_balance)]. *)
Definition TradingEngine_new (m : TradingMode) (balance : Q) : TradingEngine :=
  mkEngine m (mkPortfolio balance balance ∅)
           5000 0.20 0.02 0.05 balance balance ∅ ∅ 0.

(** [PaperTradingSimulator::PaperTradingSimulator()]. *)
Definition PaperTradingSimulator_new : PaperTradingSimulator :=
  mkSimulator 0.001 0.0005 0.95.

(** ** The trading engine ([trading_engine.cpp]) *)

(** [TradingEngine::initialize]: [open_positions] is what
    [db_manager->getOpenPositions()] returned; the C++ result is always
    [true]. *)
Definition initialize (open_positions : list Position) (e : TradingEngine)
  : TradingEngine :=
  fold_left
    (λ e pos,
       let pf := portfolio e in
       set_portfolio
         (mkPortfolio (cash_balance pf) (total_value pf)
                      (<[pos_symbol pos := pos]> (positions pf))) e)
    open_positions e.

(** The three checks of [checkRiskLimits]; each rejection writes its own
    diagnostic, which the verdict records. *)
Inductive RiskVerdict :=
| RiskOk
| PositionSizeExceeded     (* "Position size ... exceeds limit ..." *)
| InsufficientFunds        (* "Insufficient funds. Required: ..." *)
| DrawdownExceeded.        (* "Maximum drawdown exceeded: ..." *)

Section Engine.

Variable env : Env.

(** [PaperTradingSimulator::simulateSlippage]. *)
Definition simulateSlippage (sim : PaperTradingSimulator)
    (price quantity : Q) (side : string) : Q :=
  let slippage := price * slippage_rate sim * (1 + quantity / 100) in
  if String.eqb side "BUY" then price + slippage else price - slippage.

(** [PaperTradingSimulator::simulateSpread]. *)
Definition simulateSpread (sim : PaperTradingSimulator) (price : Q) : Q :=
  price * (1 + spread_rate sim).

(** [PaperTradingSimulator::simulateOrderFill]; [dis(gen)] is the draw of
    the environment.  A LIMIT order that meets neither condition falls
    through to the final [return order.order_type == "MARKET"]. *)
Definition simulateOrderFill (sim : PaperTradingSimulator)
    (order : Order) (market_price : Q) : bool :=
  if String.eqb (order_type order) "LIMIT" then
    if String.eqb (order_side order) "BUY"
       && Qle_bool market_price (order_price order)
    then Qlt_bool (uniform_draw env) (fill_probability sim)
    else if String.eqb (order_side order) "SELL"
            && Qle_bool (order_price order) market_price
    then Qlt_bool (uniform_draw env) (fill_probability sim)
    else String.eqb (order_type order) "MARKET"
  else String.eqb (order_type order) "MARKET".

(** [TradingEngine::updatePortfolio], together with the local
    [realized_pnl] of its SELL branch when that branch computes it. *)
Definition updatePortfolio_pnl (order : Order) (e : TradingEngine)
  : TradingEngine * option Q :=
  let pf := portfolio e in
  if String.eqb (order_side order) "BUY" then
    let cash := cash_balance pf - order_quantity order * order_price order in
    match positions pf !! order_symbol order with
    | Some pos =>
        let total_cost := (pos_quantity pos * entry_price pos)
                          + (order_quantity order * order_price order) in
        let quantity := pos_quantity pos + order_quantity order in
        let pos' := mkPosition (pos_symbol pos) quantity (total_cost / quantity)
                               (order_price order) (unrealized_pnl pos)
                               (entry_time pos) in
        (set_portfolio
           (mkPortfolio cash (total_value pf)
                        (<[order_symbol order := pos']> (positions pf))) e,
         None)
    | None =>
        let pos := mkPosition (order_symbol order) (order_quantity order)
                              (order_price order) (order_price order) 0
                              (clock env) in
        (set_portfolio
           (mkPortfolio cash (total_value pf)
                        (<[order_symbol order := pos]> (positions pf))) e,
         None)
    end
  else if String.eqb (order_side order) "SELL" then
    match positions pf !! order_symbol order with
    | Some pos =>
        let realized_pnl :=
          order_quantity order * (order_price order - entry_price pos) in
        let cash := cash_balance pf + order_quantity order * order_price order in
        let pos' := mkPosition (pos_symbol pos)
                               (pos_quantity pos - order_quantity order)
                               (entry_price pos) (current_price pos)
                               (unrealized_pnl pos) (entry_time pos) in
        let positions' :=
          if Qle_bool (pos_quantity pos') 0
          then delete (order_symbol order) (positions pf)
          else <[order_symbol order := pos']> (positions pf) in
        let pf' := mkPortfolio cash (total_value pf) positions' in
        let current_equity := getEquity pf' in
        let peak := if Qlt_bool (peak_balance e) current_equity
                    then current_equity else peak_balance e in
        (set_peak_balance peak (set_portfolio pf' e), Some realized_pnl)
    | None => (e, None)
    end
  else (e, None).

Definition updatePortfolio (order : Order) (e : TradingEngine) : TradingEngine :=
  (updatePortfolio_pnl order e).1.

(** [order.price = p; order.status = "FILLED"] on the caller's order. *)
Definition filled_at (order : Order) (p : Q) : Order :=
  mkOrder (order_id order) (order_symbol order) (order_side order)
          (order_quantity order) p (order_type order) "FILLED"
          (order_timestamp order).

(** [TradingEngine::executeMarketOrder]: the order is passed by reference,
    so its new value is returned next to the engine; the C++ result is
    always [true]. *)
Definition executeMarketOrder (order : Order) (market_price : Q)
    (e : TradingEngine) : Order * TradingEngine :=
  let order' := filled_at order market_price in
  let e1 := updatePortfolio order' e in
  (order',
   set_orders (delete (order_id order') (pending_orders e1))
              (<[order_id order' := order']> (filled_orders e1)) e1).

(** Modelled from the spec: [TradingEngine::executeLimitOrder] is declared in
    [trading_engine.h] and called by [simulateFill], but its body is not among
    the sources.  The spec has a LIMIT order that fills transition to FILLED
    and update the portfolio like a MARKET fill, at the price it is given. *)
Definition executeLimitOrder (order : Order) (market_price : Q)
    (e : TradingEngine) : Order * TradingEngine :=
  let order' := filled_at order market_price in
  let e1 := updatePortfolio order' e in
  (order',
   set_orders (delete (order_id order') (pending_orders e1))
              (<[order_id order' := order']> (filled_orders e1)) e1).

(** [TradingEngine::simulateFill]. *)
Definition simulateFill (order : Order) (market_price : Q) (e : TradingEngine)
  : Order * TradingEngine :=
  let simulator := PaperTradingSimulator_new in
  let fill_price :=
    simulateSlippage simulator market_price (order_quantity order)
                     (order_side order) in
  let fill_price := simulateSpread simulator fill_price in
  if String.eqb (order_type order) "MARKET" then
    executeMarketOrder order fill_price e
  else if String.eqb (order_type order) "LIMIT" then
    if simulateOrderFill simulator order market_price
    then executeLimitOrder order (order_price order) e
    else (order, e)
  else (order, e).

(** [TradingEngine::checkRiskLimits], with the check that rejected. *)
Definition riskVerdict (symbol : string) (quantity price : Q)
    (e : TradingEngine) : RiskVerdict :=
  let position_value := quantity * price in
  if Qlt_bool (max_position_size e) position_value then PositionSizeExceeded
  else if Qlt_bool (cash_balance (portfolio e)) position_value
  then InsufficientFunds
  else
    let current_drawdown :=
      (peak_balance e - getEquity (portfolio e)) / peak_balance e in
    if Qlt_bool (max_drawdown e) current_drawdown then DrawdownExceeded
    else RiskOk.

Definition checkRiskLimits (symbol : string) (quantity price : Q)
    (e : TradingEngine) : bool :=
  match riskVerdict symbol quantity price e with
  | RiskOk => true
  | _ => false
  end.

(** [TradingEngine::generateOrderId]: [++order_counter] on a 32-bit int. *)
Definition generateOrderId (e : TradingEngine) : string * TradingEngine :=
  let order_num := wrap_int32 (order_counter e + 1) in
  ("ORD_" +:+ pretty (clock env) +:+ "_" +:+ pretty order_num,
   set_order_counter order_num e).

(** [TradingEngine::placeOrder]; the result is the order identifier, or the
    empty string for a rejected order. *)
Definition placeOrder (symbol side : string) (quantity : Q)
    (type : string) (price : Q) (e : TradingEngine) : string * TradingEngine :=
  if Qle_bool quantity 0 then ("", e)
  else if negb (checkRiskLimits symbol quantity price e) then ("", e)
  else
    let (id, e1) := generateOrderId e in
    let order := mkOrder id symbol side quantity price type "PENDING"
                         (clock env) in
    let e2 := set_orders (<[order_id order := order]> (pending_orders e1))
                         (filled_orders e1) e1 in
    let e3 :=
      match mode e2 with
      | PAPER =>
          if String.eqb type "MARKET"
          then (simulateFill order
                  (if Qlt_bool 0 price then price else 100000) e2).2
          else e2
      | LIVE => e2
      end in
    (order_id order, e3).

(** The default arguments of [placeOrder]: [order_type = "MARKET"],
    [price = 0.0]. *)
Definition placeOrder_default (symbol side : string) (quantity : Q)
    (e : TradingEngine) : string * TradingEngine :=
  placeOrder symbol side quantity "MARKET" 0 e.

(** [TradingEngine::calculatePositionSize]. *)
Definition calculatePositionSize (signal : TradingSignal) (e : TradingEngine)
  : Q :=
  let available_capital := cash_balance (portfolio e) in
  let base_size := suggested_position_size signal in
  let adjusted_size := base_size * confidence signal in
  let adjusted_size := Qmin_std adjusted_size (available_capital * 0.95) in
  let adjusted_size := Qmin_std adjusted_size (max_position_size e) in
  adjusted_size.

(** [TradingEngine::processTradingSignal]; the HOLD branch only prints. *)
Definition processTradingSignal (signal : TradingSignal) (e : TradingEngine)
  : TradingEngine :=
  let position_size := calculatePositionSize signal e in
  if Qle_bool position_size 0 then e
  else
    let pos_it := positions (portfolio e) !! sig_symbol signal in
    let has_position :=
      match pos_it with
      | Some pos => Qlt_bool 0 (pos_quantity pos)
      | None => false
      end in
    if String.eqb (action signal) "BUY" && negb has_position then
      let quantity := position_size / 100000 in
      (placeOrder_default (sig_symbol signal) "BUY" quantity e).2
    else if String.eqb (action signal) "SELL" && has_position then
      match pos_it with
      | Some pos =>
          (placeOrder_default (sig_symbol signal) "SELL" (pos_quantity pos) e).2
      | None => e
      end
    else e.

(** [TradingEngine::applyStopLoss]. *)
Definition applyStopLoss (position : Position) (price : Q) (e : TradingEngine)
  : TradingEngine :=
  let loss_percentage := (entry_price position - price) / entry_price position in
  if Qle_bool (stop_loss_percentage e) loss_percentage
  then (placeOrder (pos_symbol position) "SELL" (pos_quantity position)
                   "MARKET" price e).2
  else e.

(** [TradingEngine::applyTakeProfit]. *)
Definition applyTakeProfit (position : Position) (price : Q) (e : TradingEngine)
  : TradingEngine :=
  let profit_percentage := (price - entry_price position) / entry_price position in
  if Qle_bool (take_profit_percentage e) profit_percentage
  then (placeOrder (pos_symbol position) "SELL" (pos_quantity position)
                   "MARKET" price e).2
  else e.

(** One iteration of the loop of [updatePositionPrices], for the entry with
    key [symbol]; [None] is undefined behaviour.  An entry erased before the
    loop reaches it is not visited.  Inside the iteration [position] is a
    reference into the map.  When the sale that [applyStopLoss] placed was
    filled and [updatePortfolio] erased the entry, the source goes on to read
    [position.current_price] through the dangling reference; when the sale
    that [applyTakeProfit] placed erased it, the loop advances an iterator to
    the erased node.  C++ leaves both undefined, and the iteration has no
    result. *)
Definition updatePositionPrices_step (current_prices : gmap string Q)
    (e : TradingEngine) (symbol : string) : option TradingEngine :=
  match positions (portfolio e) !! symbol with
  | None => Some e
  | Some position0 =>
      match current_prices !! symbol with
      | None => Some e
      | Some price =>
          let position :=
            mkPosition (pos_symbol position0) (pos_quantity position0)
                       (entry_price position0) price
                       (pos_quantity position0 * (price - entry_price position0))
                       (entry_time position0) in
          let pf := portfolio e in
          let e1 :=
            set_portfolio
              (mkPortfolio (cash_balance pf) (total_value pf)
                           (<[symbol := position]> (positions pf))) e in
          let e2 := applyStopLoss position (current_price position) e1 in
          match positions (portfolio e2) !! symbol with
          | None => None
          | Some position' =>
              let e3 := applyTakeProfit position' (current_price position') e2 in
              match positions (portfolio e3) !! symbol with
              | None => None
              | Some _ => Some e3
              end
          end
      end
  end.

(** The loop over the entries, in key order, as far as it is defined. *)
Fixpoint updatePositionPrices_loop (current_prices : gmap string Q)
    (symbols : list string) (e : TradingEngine) : option TradingEngine :=
  match symbols with
  | [] => Some e
  | symbol :: rest =>
      match updatePositionPrices_step current_prices e symbol with
      | Some e' => updatePositionPrices_loop current_prices rest e'
      | None => None
      end
  end.

(** [TradingEngine::updatePositionPrices]; [None] is undefined behaviour. *)
Definition updatePositionPrices (current_prices : gmap string Q)
    (e : TradingEngine) : option TradingEngine :=
  match updatePositionPrices_loop current_prices
          (sorted_keys (positions (portfolio e))) e with
  | Some e1 =>
      let pf := portfolio e1 in
      Some (set_portfolio
              (mkPortfolio (cash_balance pf) (getEquity pf) (positions pf)) e1)
  | None => None
  end.

(** Modelled from the spec: [TradingEngine::cancelOrder] is declared in
    [trading_engine.h] but its body is not among the sources.  The spec has it
    remove a PENDING order from the pending-order table only, leaving recorded
    fills alone; the result tells whether an order was removed. *)
Definition cancelOrder (id : string) (e : TradingEngine) : bool * TradingEngine :=
  match pending_orders e !! id with
  | Some order =>
      if String.eqb (order_status order) "PENDING"
      then (true, set_orders (delete id (pending_orders e)) (filled_orders e) e)
      else (false, e)
  | None => (false, e)
  end.

End Engine.

(** ** The message channel ([ipc_manager.cpp]) *)

(** The data path of [IPCManager]: [sendMessage] writes bytes into a FIFO of
    the operating system, the reader thread of the endpoint at the other end
    takes them out with [read] and queues the messages it finds, and
    [receiveMessage] pops that queue.  The model follows the bytes; the FIFO
    is the list of bytes written and not yet read.  What [open] and [write]
    answer to the sender is an input of [sendMessage]. *)
Module IPC.

Definition bytes := list ascii.

Definition newline : ascii := "010"%char.
Definition NUL : ascii := "000"%char.

(** File descriptors: [-1] is "not open". *)
Record IPCManager := mkIPC {
  connected : bool;
  running : bool;
  write_fd : Z;
  read_fd : Z;
  message_queue : list bytes
}.

(** [IPCManager::IPCManager] followed by a successful [initialize]. *)
Definition initialized : IPCManager := mkIPC true false (-1) (-1) [].

(** [IPCManager::start]. *)
Definition start (ipc : IPCManager) : IPCManager :=
  mkIPC (connected ipc) true (write_fd ipc) (read_fd ipc) (message_queue ipc).

(** The descriptor [open] hands out when it succeeds; its value plays no
    role. *)
Definition opened_fd : Z := 3.

(** What the operating system answers during one [sendMessage]: the
    descriptor that [open] returns when the pipe has to be opened ([-1] when
    both attempts fail), and the count that [write] returns ([-1] for an
    error; the pipe is opened with [O_NONBLOCK], so the count can be less
    than the length of the frame). *)
Record Syscalls := mkSyscalls {
  open_result : Z;
  write_result : Z
}.

(** [IPCManager::sendMessage]: result, endpoint, FIFO.  A count other than
    [-1] is taken for success, whatever part of the frame was written. *)
Definition sendMessage (os : Syscalls) (message : bytes) (ipc : IPCManager)
    (fifo : bytes) : bool * IPCManager * bytes :=
  if negb (connected ipc) then (false, ipc, fifo)
  else
    let fd := if (write_fd ipc =? -1)%Z then open_result os
              else write_fd ipc in
    if (fd =? -1)%Z then (false, ipc, fifo)
    else
      let msg_with_delimiter := message ++ [newline] in
      let bytes_written := write_result os in
      if (bytes_written =? -1)%Z then
        (false,
         mkIPC (connected ipc) (running ipc) (-1) (read_fd ipc)
               (message_queue ipc),
         fifo)
      else
        (true,
         mkIPC (connected ipc) (running ipc) fd (read_fd ipc)
               (message_queue ipc),
         fifo ++ take (Z.to_nat bytes_written) msg_with_delimiter).

(** The answers when [open] succeeds and [write] takes the whole frame; a
    frame of at most [PIPE_BUF] (4096) bytes is written whole or not at
    all. *)
Definition whole_write (message : bytes) : Syscalls :=
  mkSyscalls opened_fd (Z.of_nat (length (message ++ [newline]))).

(** [read(fd, buffer, count)] on a FIFO that holds data: the bytes present,
    at most [count] of them. *)
Definition os_read (count : nat) (fifo : bytes) : bytes * bytes :=
  (take count fifo, drop count fifo).

(** [std::string message(buffer)]: the bytes before the first NUL. *)
Fixpoint c_str (buffer : bytes) : bytes :=
  match buffer with
  | [] => []
  | c :: rest => if Ascii.eqb c NUL then [] else c :: c_str rest
  end.

(** [message.find(c)]: [None] is [std::string::npos]. *)
Fixpoint find (c : ascii) (message : bytes) : option nat :=
  match message with
  | [] => None
  | x :: rest => if Ascii.eqb x c then Some O else S <$> find c rest
  end.

(** The [while ((pos = message.find('\n')) != npos)] loop of [readerLoop];
    every iteration erases at least one byte, so [length message] iterations
    are enough.  What is left of [message] when the loop ends is dropped. *)
Fixpoint split_loop (fuel : nat) (message : bytes) (queue : list bytes)
  : list bytes :=
  match fuel with
  | O => queue
  | S fuel' =>
      match find newline message with
      | None => queue
      | Some pos =>
          let msg := take pos message in
          let queue' := match msg with
                        | [] => queue
                        | _ => queue ++ [msg]
                        end in
          split_loop fuel' (drop (S pos) message) queue'
      end
  end.

(** The size of the reader's buffer. *)
Definition buffer_size : nat := 4096.

(** One pass through the body of [while (running)] in [readerLoop], with
    data in the FIFO. *)
Definition readerLoop_body (ipc : IPCManager) (fifo : bytes)
  : IPCManager * bytes :=
  let fd := if (read_fd ipc =? -1)%Z then opened_fd else read_fd ipc in
  let (buffer, fifo') := os_read (buffer_size - 1) fifo in
  let message := c_str buffer in
  (mkIPC (connected ipc) (running ipc) (write_fd ipc) fd
         (split_loop (length message) message (message_queue ipc)),
   fifo').

(** [IPCManager::readerLoop] until the FIFO is empty, where [read] blocks.
    Each pass takes at least one byte. *)
Fixpoint readerLoop (fuel : nat) (ipc : IPCManager) (fifo : bytes)
  : IPCManager * bytes :=
  match fuel with
  | O => (ipc, fifo)
  | S fuel' =>
      if running ipc then
        match fifo with
        | [] => (ipc, fifo)
        | _ => let (ipc', fifo') := readerLoop_body ipc fifo in
               readerLoop fuel' ipc' fifo'
        end
      else (ipc, fifo)
  end.

(** [IPCManager::receiveMessage] once the wait is over: the front of the
    queue, or the empty string after a timeout. *)
Definition receiveMessage (ipc : IPCManager) : bytes * IPCManager :=
  match message_queue ipc with
  | message :: rest =>
      (message,
       mkIPC (connected ipc) (running ipc) (write_fd ipc) (read_fd ipc) rest)
  | [] => ([], ipc)
  end.

(** [sendMessage(m)] on one endpoint, its frame written whole, then
    [receiveMessage] on the endpoint that reads the FIFO, once its reader
    thread has taken what was sent. *)
Definition round_trip (m : bytes) : bytes :=
  let '(_, _, fifo) := sendMessage (whole_write m) m initialized [] in
  let (peer, _) := readerLoop (length fifo) (start initialized) fifo in
  (receiveMessage peer).1.

End IPC.

(** ** Text ([std::string], [std::getline]) *)

(** [s.find(c)]: [None] is [std::string::npos]. *)
Fixpoint string_find (c : ascii) (s : string) : option nat :=
  match s with
  | EmptyString => None
  | String x rest => if Ascii.eqb x c then Some O else S <$> string_find c rest
  end.

(** [s.substr(0, n)]. *)
Fixpoint string_take (n : nat) (s : string) : string :=
  match n, s with
  | S n', String x rest => String x (string_take n' rest)
  | _, _ => EmptyString
  end.

(** [s.substr(n)], for [n] up to the length of [s]. *)
Fixpoint string_drop (n : nat) (s : string) : string :=
  match n, s with
  | S n', String _ rest => string_drop n' rest
  | _, _ => s
  end.

(** The loop [while (std::getline(stream, piece, delimiter))] over a stream
    that holds [text]: the pieces it yields, in order.  [current] is what has
    been extracted of the piece under way.  At the end of the text a piece is
    yielded only if something was extracted for it. *)
Fixpoint getline_pieces (delimiter : ascii) (current text : string)
  : list string :=
  match text with
  | EmptyString =>
      match current with
      | EmptyString => []
      | _ => [current]
      end
  | String x rest =>
      if Ascii.eqb x delimiter
      then current :: getline_pieces delimiter EmptyString rest
      else getline_pieces delimiter (current +:+ String x EmptyString) rest
  end.

Definition getlines (delimiter : ascii) (text : string) : list string :=
  getline_pieces delimiter EmptyString text.

(** ** The API key ([main.cpp], [api.h]) *)

(** The body of the loop of [loadEnv] for one line. *)
Definition loadEnv_line (env : gmap string string) (line : string)
  : gmap string string :=
  match line with
  | EmptyString => env
  | String first _ =>
      if Ascii.eqb first "#" then env
      else
        match string_find "=" line with
        | Some pos =>
            let key := string_take pos line in
            let value := string_drop (S pos) line in
            <[key := value]> env
        | None => env
        end
  end.

(** [loadEnv]: [file] is the text of the file, or [None] when it cannot be
    opened, in which case [std::getline] yields nothing. *)
Definition loadEnv (file : option string) : gmap string string :=
  match file with
  | Some text => fold_left loadEnv_line (getlines "010" text) ∅
  | None => ∅
  end.

Record StockApi := mkStockApi {
  m_ApiKey : string;
  m_isInitialized : bool
}.

(** [StockApi::StockApi]. *)
Definition StockApi_new (file : option string) : StockApi :=
  let env := loadEnv file in
  match env !! "API_KEY" with
  | Some key => mkStockApi key true
  | None => mkStockApi EmptyString false
  end.

(** ** Several messages over the channel *)

(** [sendMessage] for each message in turn, on one endpoint, each frame
    written whole. *)
Definition send_all (messages : list IPC.bytes) (ipc : IPC.IPCManager)
    (fifo : IPC.bytes) : IPC.IPCManager * IPC.bytes :=
  fold_left (λ state message,
               let '(_, ipc', fifo') :=
                 IPC.sendMessage (IPC.whole_write message) message
                                 state.1 state.2 in
               (ipc', fifo'))
            messages (ipc, fifo).

(** [n] calls of [receiveMessage] in a row, with their results. *)
Fixpoint receive_n (n : nat) (ipc : IPC.IPCManager)
  : list IPC.bytes * IPC.IPCManager :=
  match n with
  | O => ([], ipc)
  | S n' =>
      let (message, ipc') := IPC.receiveMessage ipc in
      let (rest, ipc'') := receive_n n' ipc' in
      (message :: rest, ipc'')
  end.

(** The messages are sent, the reader of the endpoint at the other end takes
    what is in the FIFO, and [receiveMessage] is called [n] times there. *)
Definition batch_trip (messages : list IPC.bytes) (n : nat) : list IPC.bytes :=
  let (_, fifo) := send_all messages IPC.initialized [] in
  let (peer, _) := IPC.readerLoop (length fifo) (IPC.start IPC.initialized) fifo in
  (receive_n n peer).1.

(** The passes of the reader's loop when its successive calls of [read]
    return the chunks given: each chunk is what the call found in the FIFO,
    not empty and at most 4095 bytes. *)
Definition read_chunks (chunks : list IPC.bytes) (ipc : IPC.IPCManager)
  : IPC.IPCManager :=
  fold_left (λ ipc chunk, (IPC.readerLoop_body ipc chunk).1) chunks ipc.

(** ** Queries of the engine ([trading_engine.cpp], [data_types.h]) *)

(** [TradingEngine::getAllPositions]. *)
Definition getAllPositions (e : TradingEngine) : list Position :=
  (sorted_entries (positions (portfolio e))).*2.

(** [Position::getPnlPercentage]. *)
Definition getPnlPercentage (position : Position) : Q :=
  ((current_price position - entry_price position) / entry_price position)
  * 100.

(** ** Configuration ([config_manager.cpp]) *)

(** [config_data]: section, then key. *)
Definition ConfigManager := gmap string (gmap string string).

(** [ConfigManager::getString]. *)
Definition getString (section key default_value : string)
    (cm : ConfigManager) : string :=
  match cm !! section with
  | Some keys =>
      match keys !! key with
      | Some value => value
      | None => default_value
      end
  | None => default_value
  end.

(** [ConfigManager::setString]: [config_data[section][key] = value], where
    [operator[]] makes the section when it is not there. *)
Definition setString (section key value : string) (cm : ConfigManager)
  : ConfigManager :=
  <[section := <[key := value]> (default ∅ (cm !! section))]> cm.

(** [ConfigManager::setBool]. *)
Definition setBool (section key : string) (value : bool) (cm : ConfigManager)
  : ConfigManager :=
  setString section key (if value then "true" else "false") cm.

(** [::tolower] in the C locale: the letters [A] to [Z] go to [a] to [z],
    every other byte stays. *)
Definition tolower (c : ascii) : ascii :=
  let n := nat_of_ascii c in
  if ((65 <=? n) && (n <=? 90))%nat then ascii_of_nat (n + 32) else c.

(** [std::transform(value.begin(), value.end(), value.begin(), f)]. *)
Fixpoint transform (f : ascii → ascii) (value : string) : string :=
  match value with
  | EmptyString => EmptyString
  | String c rest => String (f c) (transform f rest)
  end.

(** [ConfigManager::getBool]. *)
Definition getBool (section key : string) (default_value : bool)
    (cm : ConfigManager) : bool :=
  let value := getString section key "" cm in
  match value with
  | EmptyString => default_value
  | _ =>
      let value := transform tolower value in
      String.eqb value "true" || String.eqb value "1"
      || String.eqb value "yes" || String.eqb value "on"
  end.

(** Membership in the set [" \t\n\r"] that [trim] cuts. *)
Definition is_blank (c : ascii) : bool :=
  Ascii.eqb c " " || Ascii.eqb c "009" || Ascii.eqb c "010"
  || Ascii.eqb c "013".

(** [str.find_first_not_of(" \t\n\r")]; [None] is [npos]. *)
Fixpoint find_first_not_of (str : string) : option nat :=
  match str with
  | EmptyString => None
  | String c rest =>
      if is_blank c then S <$> find_first_not_of rest else Some O
  end.

(** [str.find_last_not_of(" \t\n\r")]. *)
Fixpoint find_last_not_of (str : string) : option nat :=
  match str with
  | EmptyString => None
  | String c rest =>
      match find_last_not_of rest with
      | Some n => Some (S n)
      | None => if is_blank c then None else Some O
      end
  end.

(** [str.substr(pos, n)], for [pos] up to the length of [str]. *)
Definition substr (pos n : nat) (str : string) : string :=
  string_take n (string_drop pos str).

(** [ConfigManager::trim].  A string with a first character that is not
    blank has a last one, so [last] is never [npos] where it is used. *)
Definition trim (str : string) : string :=
  match find_first_not_of str with
  | None => EmptyString
  | Some first =>
      match find_last_not_of str with
      | Some last => substr first (last - first + 1) str
      | None => EmptyString
      end
  end.

(** The symbols of [TradingConfig::loadFromConfig]. *)
Definition TradingConfig_symbols (cm : ConfigManager) : list string :=
  getlines "," (getString "market_data" "symbols" "BTC,ETH,DOGE" cm).

(** ** The application ([main_new.cpp]) *)

(** The price map that [TradingSystemApp::updatePortfolio] builds;
    [market_data symbol] stands for the closing prices of the rows that
    [db_manager->getMarketData(symbol, 1)] returns. *)
Definition current_prices_of (symbols : list string)
    (market_data : string → list Q) : gmap string Q :=
  fold_left (λ current_prices symbol,
               match market_data symbol with
               | close :: _ => <[symbol := close]> current_prices
               | [] => current_prices
               end)
            symbols ∅.

(** [TradingSystemApp::updatePortfolio]; [None] as for
    [updatePositionPrices]. *)
Definition app_updatePortfolio (env : Env) (symbols : list string)
    (market_data : string → list Q) (e : TradingEngine)
  : option TradingEngine :=
  updatePositionPrices env (current_prices_of symbols market_data) e.

(** ** Vocabulary of the properties *)

(** Every entry of the positions map is filed under its own symbol, as
    [initialize] and [updatePortfolio] file them. *)
Definition positions_keyed (e : TradingEngine) : Prop :=
  map_Forall (λ k pos, pos_symbol pos = k) (positions (portfolio e)).


(** The market value of a list of positions, summed in any order. *)
Definition positions_value (l : list (string * Position)) : Q :=
  foldr (λ sp total, pos_quantity sp.2 * current_price sp.2 + total) 0 l.

(** A list of messages as [sendMessage] lays them in the FIFO. *)
Definition frames (messages : list IPC.bytes) : IPC.bytes :=
  mjoin ((λ message, message ++ [IPC.newline]) <$> messages).

(** The bytes a list of messages takes in the FIFO, delimiters included. *)
Definition frame_bytes (messages : list IPC.bytes) : nat :=
  sum_list ((λ message, S (length message)) <$> messages).

(** [text] ends with [c]. *)
Fixpoint ends_with (c : ascii) (text : string) : bool :=
  match text with
  | EmptyString => false
  | String x EmptyString => Ascii.eqb x c
  | String _ rest => ends_with c rest
  end.

(** [text] with the delimiter added at its end, unless it is empty or ends
    with the delimiter already. *)
Definition terminated (delimiter : ascii) (text : string) : string :=
  match text with
  | EmptyString => EmptyString
  | _ => if ends_with delimiter text then text
         else text +:+ String delimiter EmptyString
  end.

(** [line] is an assignment of [value] to [key] as [loadEnv] reads it: the
    key is what stands before the first [=], and a line that starts with [#]
    is a comment. *)
Definition assigns (line key value : string) : Prop :=
  line = key +:+ String "=" value
  ∧ string_find "=" key = None
  ∧ ∀ rest, key ≠ String "#" rest.

(** A position marked at [price]: the price and the P&L that
    [updatePositionPrices] writes, the other fields as they are. *)
Definition marked_at (pos : Position) (price : Q) : Position :=
  mkPosition (pos_symbol pos) (pos_quantity pos) (entry_price pos) price
             (pos_quantity pos * (price - entry_price pos)) (entry_time pos).

(** The position under [symbol] once the quotes of [prices] are in. *)
Definition remarked (prices : gmap string Q) (symbol : string)
    (pos : Position) : Position :=
  match prices !! symbol with
  | Some price => marked_at pos price
  | None => pos
  end.

(** The engine with the entry under [symbol] marked at its quote, when the
    entry and the quote are there. *)
Definition mark (prices : gmap string Q) (symbol : string)
    (e : TradingEngine) : TradingEngine :=
  match positions (portfolio e) !! symbol, prices !! symbol with
  | Some pos, Some price =>
      let pf := portfolio e in
      set_portfolio
        (mkPortfolio (cash_balance pf) (total_value pf)
                     (<[symbol := marked_at pos price]> (positions pf))) e
  | _, _ => e
  end.

Definition marks (prices : gmap string Q) (symbols : list string)
    (e : TradingEngine) : TradingEngine :=
  fold_left (λ e symbol, mark prices symbol e) symbols e.



(** What the channel takes for a message: not empty, free of the delimiter
    and of NUL, and shorter than one [read]. *)
Definition well_formed (message : IPC.bytes) : Prop :=
  message ≠ []
  ∧ (IPC.newline ∉ message) ∧ (IPC.NUL ∉ message)
  ∧ (length message < IPC.buffer_size - 1)%nat.

(** A string of blanks only. *)
Definition blank_string (s : string) : Prop :=
  Forall (λ c, is_blank c = true) (list_ascii_of_string s).

(** The pieces of a split, each followed by the delimiter. *)
Definition delimited (delimiter : ascii) (pieces : list string) : string :=
  foldr (λ piece text, piece +:+ String delimiter text) EmptyString pieces.

(** ** Scenarios *)

(** A clock reading and a draw, where a concrete environment is needed. *)
Definition env0 : Env := mkEnv 1700000000 0.5.

(** The engine of the boundary scenario: paper mode, cash 10000; the
    constructor sets [max_position_size] to 5000. *)
Definition engine0 : TradingEngine := TradingEngine_new PAPER 10000.

(** A live engine that loaded one open position at start-up: 0.01 BTC
    entered at 100000. *)
Definition btc_position : Position :=
  mkPosition "BTC" 0.01 100000 100000 0 1699990000.

Definition live_engine : TradingEngine :=
  initialize [btc_position] (TradingEngine_new LIVE 10000).

Definition btc_drop : gmap string Q := {[ "BTC" := 97000 ]}.

(** A paper engine after two purchases: 49 AAA and 20 BBB, both quoted
    at 100. *)
Definition paper_engine : TradingEngine :=
  (placeOrder env0 "BBB" "BUY" 20 "MARKET" 100
     (placeOrder env0 "AAA" "BUY" 49 "MARKET" 100 engine0).2).2.

(** AAA falls by more than the stop-loss, BBB rises by more than the
    take-profit. *)
Definition aaa_down_bbb_up : gmap string Q := {[ "AAA" := 97; "BBB" := 110 ]}.

(** Fills used to exercise [updatePortfolio]: two purchases of BTC and the
    sale of what they add up to, the position the purchases leave, and the
    engine that holds it. *)
Definition buy_btc_1 : Order :=
  mkOrder "ORD_1700000000_1" "BTC" "BUY" 0.05 100000 "MARKET" "FILLED"
          1700000000.

Definition buy_btc_2 : Order :=
  mkOrder "ORD_1700000000_2" "BTC" "BUY" 0.03 90000 "MARKET" "FILLED"
          1700000000.

Definition sell_btc_all : Order :=
  mkOrder "ORD_1700000000_3" "BTC" "SELL" 0.08 110000 "MARKET" "FILLED"
          1700000000.

Definition btc_after_two_buys : Position :=
  mkPosition "BTC" (0.05 + 0.03)
             ((0.05 * 100000 + 0.03 * 90000) / (0.05 + 0.03))
             90000 0 1700000000.

Definition engine_after_two_buys : TradingEngine :=
  updatePortfolio env0 buy_btc_2 (updatePortfolio env0 buy_btc_1 engine0).

(** Two signals of the analyser. *)
Definition buy_signal : TradingSignal :=
  mkSignal "BTC" 0.8 "BUY" 1000 1700000000.

Definition sell_signal : TradingSignal :=
  mkSignal "AAA" 0.9 "SELL" 1000 1700000000.

(** The AAA position of [paper_engine], as its purchase was filled. *)
Definition aaa_position : Position :=
  mkPosition "AAA" 49
    (simulateSpread PaperTradingSimulator_new
       (simulateSlippage PaperTradingSimulator_new 100 49 "BUY"))
    (simulateSpread PaperTradingSimulator_new
       (simulateSlippage PaperTradingSimulator_new 100 49 "BUY"))
    0 1700000000.

Definition limit_buy_btc : Order :=
  mkOrder "ORD_1700000000_1" "BTC" "BUY" 0.01 100000 "LIMIT" "PENDING"
          1700000000.

Definition aaa_quote : gmap string Q := {[ "AAA" := 97 ]}.

(** An engine whose order counter stands at the largest [int]. *)
Definition engine_at_last_id : TradingEngine :=
  set_order_counter 2147483647 engine0.

Definition ping : IPC.bytes := list_ascii_of_string "ping".
Definition pong : IPC.bytes := list_ascii_of_string "pong".

(** The database holds rows for BTC only. *)
Definition btc_rows (symbol : string) : list Q :=
  if String.eqb symbol "BTC" then [97000; 98000] else [].


(** * Properties *)

(** ** The iteration order of a map *)

Section MapOrder.

Context {V : Type}.

#[local] Instance key_order_total :
  Total (λ a b : string * V, String.le a.1 b.1).
Proof. intros a b. apply String.le_total. Qed.

(** The walk visits the entries in increasing key order, *)
Lemma sorted_entries_sorted (m : gmap string V) :
  Sorted (λ a b, String.le a.1 b.1) (sorted_entries m).
Proof. apply Sorted_merge_sort, _. Qed.

(** and it visits each entry of the map, once. *)
Lemma sorted_entries_permutation (m : gmap string V) :
  sorted_entries m ≡ₚ map_to_list m.
Proof. apply merge_sort_Permutation. Qed.

Lemma sorted_keys_elem_of (m : gmap string V) (k : string) :
  k ∈ sorted_keys m ↔ is_Some (m !! k).
Proof.
  unfold sorted_keys. rewrite sorted_entries_permutation.
  rewrite list_elem_of_fmap. split.
  - intros [[k' v] [-> Hin]]. apply elem_of_map_to_list in Hin. by exists v.
  - intros [v Hv]. exists (k, v). split; [done|].
    by apply elem_of_map_to_list.
Qed.

Lemma sorted_keys_NoDup (m : gmap string V) : NoDup (sorted_keys m).
Proof.
  unfold sorted_keys. rewrite sorted_entries_permutation.
  apply NoDup_fst_map_to_list.
Qed.

End MapOrder.

(** ** Comparisons on rationals *)

Lemma Qlt_bool_iff (x y : Q) : Qlt_bool x y = true ↔ x < y.
Proof. unfold Qlt_bool, Qlt. apply Z.ltb_lt. Qed.

Lemma Qlt_bool_false_iff (x y : Q) : Qlt_bool x y = false ↔ y <= x.
Proof. unfold Qlt_bool, Qle. apply Z.ltb_ge. Qed.

Lemma Qle_bool_false_iff (x y : Q) : Qle_bool x y = false ↔ y < x.
Proof.
  unfold Qle_bool, Qlt. rewrite Z.leb_gt. reflexivity.
Qed.

Lemma Qle_bool_diag_sub (x y : Q) : x == y → Qle_bool (y - x) 0 = true.
Proof.
  intros Hxy. apply Qle_bool_iff. rewrite Hxy.
  assert (Hz : y - y == 0) by ring. rewrite Hz. apply Qle_refl.
Qed.

(** ** Fills and the portfolio *)

Section Fills.

Variable env : Env.

(** C1.  A BUY fill of quantity [q > 0] at price [p] leaves
    [cash - q * p] in the cash balance. *)
Theorem buy_fill_decreases_cash (order : Order) (e : TradingEngine) :
  order_side order = "BUY" →
  0 < order_quantity order →
  cash_balance (portfolio (updatePortfolio env order e))
  = cash_balance (portfolio e) - order_quantity order * order_price order.
Proof.
  intros Hside _. unfold updatePortfolio, updatePortfolio_pnl.
  rewrite Hside. cbn [String.eqb Ascii.eqb Bool.eqb].
  destruct (positions (portfolio e) !! order_symbol order); reflexivity.
Qed.

(** The position a first BUY fill opens. *)
Lemma buy_fill_opens_position (order : Order) (e : TradingEngine) :
  order_side order = "BUY" →
  positions (portfolio e) !! order_symbol order = None →
  positions (portfolio (updatePortfolio env order e)) !! order_symbol order
  = Some (mkPosition (order_symbol order) (order_quantity order)
                     (order_price order) (order_price order) 0 (clock env)).
Proof.
  intros Hside Hnone. unfold updatePortfolio, updatePortfolio_pnl.
  rewrite Hside, Hnone. cbn [String.eqb Ascii.eqb Bool.eqb fst].
  cbn. apply lookup_insert_eq.
Qed.

(** The position after a BUY fill into an existing one. *)
Lemma buy_fill_merges_position (order : Order) (pos : Position)
    (e : TradingEngine) :
  order_side order = "BUY" →
  positions (portfolio e) !! order_symbol order = Some pos →
  positions (portfolio (updatePortfolio env order e)) !! order_symbol order
  = Some (mkPosition (pos_symbol pos)
            (pos_quantity pos + order_quantity order)
            ((pos_quantity pos * entry_price pos
              + order_quantity order * order_price order)
             / (pos_quantity pos + order_quantity order))
            (order_price order) (unrealized_pnl pos) (entry_time pos)).
Proof.
  intros Hside Hsome. unfold updatePortfolio, updatePortfolio_pnl.
  rewrite Hside, Hsome. cbn. apply lookup_insert_eq.
Qed.

(** C2.  With no position in [symbol] at the start, BUY fills [(q1, p1)]
    then [(q2, p2)] leave a position of quantity [q1 + q2] entered at
    [(q1 * p1 + q2 * p2) / (q1 + q2)]. *)
Theorem two_buy_fills_average_entry (symbol : string) (o1 o2 : Order)
    (e : TradingEngine) :
  positions (portfolio e) !! symbol = None →
  order_side o1 = "BUY" → order_symbol o1 = symbol →
  order_side o2 = "BUY" → order_symbol o2 = symbol →
  0 < order_quantity o1 → 0 < order_quantity o2 →
  ∃ pos,
    positions (portfolio (updatePortfolio env o2 (updatePortfolio env o1 e)))
      !! symbol = Some pos
    ∧ pos_quantity pos = order_quantity o1 + order_quantity o2
    ∧ entry_price pos
      = (order_quantity o1 * order_price o1 + order_quantity o2 * order_price o2)
        / (order_quantity o1 + order_quantity o2).
Proof.
  intros Hnone Hs1 Hy1 Hs2 Hy2 _ _. subst symbol.
  pose proof (buy_fill_opens_position o1 e Hs1 Hnone) as H1.
  rewrite <- Hy2 in H1.
  eexists. split.
  - rewrite <- Hy2. apply (buy_fill_merges_position o2 _ _ Hs2 H1).
  - split; reflexivity.
Qed.

(** C3.  A SELL fill for the whole quantity of the position held in its
    symbol adds [q * p] to cash, removes the position from the map, and the
    realized P&L it computes is [q * (p - entry)]. *)
Theorem sell_fill_closes_position (order : Order) (pos : Position)
    (e : TradingEngine) :
  order_side order = "SELL" →
  positions (portfolio e) !! order_symbol order = Some pos →
  order_quantity order == pos_quantity pos →
  let r := updatePortfolio_pnl env order e in
  cash_balance (portfolio r.1)
  = cash_balance (portfolio e) + order_quantity order * order_price order
  ∧ positions (portfolio r.1) !! order_symbol order = None
  ∧ r.2 = Some (order_quantity order * (order_price order - entry_price pos)).
Proof.
  intros Hside Hsome Hall. unfold updatePortfolio_pnl.
  rewrite Hside, Hsome. cbn.
  rewrite (Qle_bool_diag_sub _ _ Hall).
  repeat split. apply lookup_delete_eq.
Qed.

End Fills.

(** ** Field updates *)

Lemma peak_set_portfolio p e : peak_balance (set_portfolio p e) = peak_balance e.
Proof. reflexivity. Qed.

Lemma peak_set_orders a b e : peak_balance (set_orders a b e) = peak_balance e.
Proof. reflexivity. Qed.

Lemma peak_set_order_counter n e :
  peak_balance (set_order_counter n e) = peak_balance e.
Proof. reflexivity. Qed.

(** ** Peak equity *)

Create HintDb peak.

(** Case analysis on the conditions a definition branches on. *)
Ltac split_branches :=
  repeat match goal with
         | |- context [match ?c with _ => _ end] =>
             lazymatch c with
             | context [match _ with _ => _ end] => fail
             | _ => destruct c
             end
         end.

Section Peak.

Variable env : Env.

#[local] Hint Resolve Qle_refl : peak.

Lemma updatePortfolio_peak (order : Order) (e : TradingEngine) :
  peak_balance e <= peak_balance (updatePortfolio env order e).
Proof.
  unfold updatePortfolio, updatePortfolio_pnl.
  destruct (String.eqb (order_side order) "BUY").
  { destruct (positions (portfolio e) !! order_symbol order);
      cbn; auto with peak. }
  destruct (String.eqb (order_side order) "SELL"); [|auto with peak].
  destruct (positions (portfolio e) !! order_symbol order);
    [|auto with peak].
  cbn [fst set_peak_balance peak_balance].
  match goal with |- context [Qlt_bool ?a ?b] =>
    destruct (Qlt_bool a b) eqn:Hlt end.
  - apply Qlt_le_weak, Qlt_bool_iff, Hlt.
  - apply Qle_refl.
Qed.

#[local] Hint Resolve updatePortfolio_peak : peak.

Lemma executeMarketOrder_peak (order : Order) (p : Q) (e : TradingEngine) :
  peak_balance e <= peak_balance (executeMarketOrder env order p e).2.
Proof. unfold executeMarketOrder. cbn. auto with peak. Qed.

Lemma executeLimitOrder_peak (order : Order) (p : Q) (e : TradingEngine) :
  peak_balance e <= peak_balance (executeLimitOrder env order p e).2.
Proof. unfold executeLimitOrder. cbn. auto with peak. Qed.

#[local] Hint Resolve executeMarketOrder_peak executeLimitOrder_peak : peak.

Lemma simulateFill_peak (order : Order) (p : Q) (e : TradingEngine) :
  peak_balance e <= peak_balance (simulateFill env order p e).2.
Proof. unfold simulateFill. split_branches; auto with peak. Qed.

#[local] Hint Resolve simulateFill_peak : peak.

Lemma placeOrder_peak (symbol side : string) (quantity : Q) (type : string)
    (price : Q) (e : TradingEngine) :
  peak_balance e
  <= peak_balance (placeOrder env symbol side quantity type price e).2.
Proof.
  unfold placeOrder.
  destruct (Qle_bool quantity 0); [auto with peak|].
  destruct (negb _); [auto with peak|].
  unfold generateOrderId. cbn [snd order_id mode set_orders set_order_counter].
  destruct (mode e); [|auto with peak].
  destruct (String.eqb type "MARKET"); [|auto with peak].
  match goal with |- _ <= peak_balance (simulateFill _ ?o ?p ?e1).2 =>
    apply (Qle_trans _ (peak_balance e1)); auto with peak end.
Qed.

#[local] Hint Resolve placeOrder_peak : peak.

Lemma processTradingSignal_peak (signal : TradingSignal) (e : TradingEngine) :
  peak_balance e <= peak_balance (processTradingSignal env signal e).
Proof.
  unfold processTradingSignal, placeOrder_default.
  destruct (Qle_bool _ 0); [auto with peak|].
  destruct (positions (portfolio e) !! sig_symbol signal);
    split_branches; auto with peak.
Qed.

Lemma applyStopLoss_peak (position : Position) (price : Q) (e : TradingEngine) :
  peak_balance e <= peak_balance (applyStopLoss env position price e).
Proof. unfold applyStopLoss. split_branches; auto with peak. Qed.

Lemma applyTakeProfit_peak (position : Position) (price : Q)
    (e : TradingEngine) :
  peak_balance e <= peak_balance (applyTakeProfit env position price e).
Proof. unfold applyTakeProfit. split_branches; auto with peak. Qed.

Lemma updatePositionPrices_step_peak (prices : gmap string Q)
    (e e' : TradingEngine) (symbol : string) :
  updatePositionPrices_step env prices e symbol = Some e' →
  peak_balance e <= peak_balance e'.
Proof.
  unfold updatePositionPrices_step.
  destruct (positions (portfolio e) !! symbol);
    [|intros [= <-]; apply Qle_refl].
  destruct (prices !! symbol); [|intros [= <-]; apply Qle_refl].
  cbv zeta.
  destruct (positions (portfolio (applyStopLoss _ _ _ _)) !! symbol); [|done].
  destruct (positions (portfolio (applyTakeProfit _ _ _ _)) !! symbol);
    [|done].
  intros [= <-].
  eapply Qle_trans; [|apply applyTakeProfit_peak].
  eapply Qle_trans; [|apply applyStopLoss_peak].
  apply Qle_refl.
Qed.

Lemma updatePositionPrices_loop_peak (prices : gmap string Q)
    (symbols : list string) (e e' : TradingEngine) :
  updatePositionPrices_loop env prices symbols e = Some e' →
  peak_balance e <= peak_balance e'.
Proof.
  revert e. induction symbols as [|symbol symbols IH]; intros e;
    cbn [updatePositionPrices_loop].
  - intros [= <-]. apply Qle_refl.
  - destruct (updatePositionPrices_step env prices e symbol) as [e1|] eqn:Hstep;
      [|done].
    intros Hloop.
    eapply Qle_trans; [by eapply updatePositionPrices_step_peak|by apply IH].
Qed.

Lemma updatePositionPrices_peak (prices : gmap string Q)
    (e e' : TradingEngine) :
  updatePositionPrices env prices e = Some e' →
  peak_balance e <= peak_balance e'.
Proof.
  unfold updatePositionPrices.
  destruct (updatePositionPrices_loop _ _ _ _) as [e1|] eqn:Hloop; [|done].
  intros [= <-]. rewrite peak_set_portfolio.
  by eapply updatePositionPrices_loop_peak.
Qed.

(** C7.  The recorded peak equity never decreases: each of [placeOrder],
    [simulateFill], [updatePortfolio] and [processTradingSignal] leaves it at
    least as large as it was, and so does every call of
    [updatePositionPrices] that has a result (a call in which a position is
    erased under the loop has none). *)
Theorem peak_equity_never_decreases :
  (∀ symbol side quantity type price e,
      peak_balance e
      <= peak_balance (placeOrder env symbol side quantity type price e).2)
  ∧ (∀ order market_price e,
      peak_balance e <= peak_balance (simulateFill env order market_price e).2)
  ∧ (∀ order e, peak_balance e <= peak_balance (updatePortfolio env order e))
  ∧ (∀ prices e e',
      updatePositionPrices env prices e = Some e' →
      peak_balance e <= peak_balance e')
  ∧ (∀ signal e,
      peak_balance e <= peak_balance (processTradingSignal env signal e)).
Proof.
  repeat split; intros.
  - apply placeOrder_peak.
  - apply simulateFill_peak.
  - apply updatePortfolio_peak.
  - by eapply updatePositionPrices_peak.
  - apply processTradingSignal_peak.
Qed.

End Peak.

(** ** Placing orders *)

Section Orders.

Variable env : Env.

(** An accepted order gets an identifier that starts with "ORD_". *)
Lemma generateOrderId_nonempty (e : TradingEngine) :
  (generateOrderId env e).1 ≠ "".
Proof. unfold generateOrderId. cbn. discriminate. Qed.

(** What [placeOrder] does on each of its paths. *)
Lemma placeOrder_rejected (symbol side : string) (quantity : Q) (type : string)
    (price : Q) (e : TradingEngine) :
  Qle_bool quantity 0 = true ∨ checkRiskLimits symbol quantity price e = false →
  placeOrder env symbol side quantity type price e = ("", e).
Proof.
  unfold placeOrder. intros [Hq | Hrisk].
  - rewrite Hq. reflexivity.
  - rewrite Hrisk. destruct (Qle_bool quantity 0); reflexivity.
Qed.

Lemma placeOrder_accepted (symbol side : string) (quantity : Q) (type : string)
    (price : Q) (e : TradingEngine) :
  Qle_bool quantity 0 = false →
  checkRiskLimits symbol quantity price e = true →
  let id := (generateOrderId env e).1 in
  let e1 := (generateOrderId env e).2 in
  let order := mkOrder id symbol side quantity price type "PENDING" (clock env) in
  let e2 := set_orders (<[id := order]> (pending_orders e1)) (filled_orders e1) e1 in
  placeOrder env symbol side quantity type price e
  = (id,
     match mode e with
     | PAPER =>
         if String.eqb type "MARKET"
         then (simulateFill env order
                 (if Qlt_bool 0 price then price else 100000) e2).2
         else e2
     | LIVE => e2
     end).
Proof.
  intros Hq Hrisk. unfold placeOrder. rewrite Hq, Hrisk. reflexivity.
Qed.

(** C10.  When [placeOrder] returns the empty string the engine is as it was
    before the call: cash, positions, pending and filled orders (and every
    other field). *)
Theorem placeOrder_rejection_changes_nothing (symbol side : string)
    (quantity : Q) (type : string) (price : Q) (e : TradingEngine) :
  (placeOrder env symbol side quantity type price e).1 = "" →
  (Qle_bool quantity 0 = true ∨ checkRiskLimits symbol quantity price e = false)
  ∧ (placeOrder env symbol side quantity type price e).2 = e.
Proof.
  intros Hret.
  destruct (Qle_bool quantity 0) eqn:Hq.
  { split; [by left|]. rewrite placeOrder_rejected; auto. }
  destruct (checkRiskLimits symbol quantity price e) eqn:Hrisk.
  - rewrite (placeOrder_accepted _ _ _ _ _ _ Hq Hrisk) in Hret.
    exfalso. exact (generateOrderId_nonempty e Hret).
  - split; [by right|]. rewrite placeOrder_rejected; auto.
Qed.

(** A SELL fill for a symbol without a position leaves the portfolio alone. *)
Lemma updatePortfolio_sell_no_position (order : Order) (e : TradingEngine) :
  order_side order = "SELL" →
  positions (portfolio e) !! order_symbol order = None →
  updatePortfolio env order e = e.
Proof.
  intros Hside Hnone. unfold updatePortfolio, updatePortfolio_pnl.
  rewrite Hside, Hnone. reflexivity.
Qed.

Lemma executeMarketOrder_sell_no_position (order : Order) (p : Q)
    (e : TradingEngine) :
  order_side order = "SELL" →
  positions (portfolio e) !! order_symbol order = None →
  executeMarketOrder env order p e
  = (filled_at order p,
     set_orders (delete (order_id order) (pending_orders e))
                (<[order_id order := filled_at order p]> (filled_orders e)) e).
Proof.
  intros Hside Hnone. unfold executeMarketOrder.
  rewrite updatePortfolio_sell_no_position; auto.
Qed.

(** C9.  In paper mode a SELL MARKET order for a symbol without a position,
    once accepted, is recorded as FILLED, and the whole portfolio (cash and
    positions with it) stays as it was: nothing is credited. *)
Theorem paper_sell_without_position (symbol : string) (quantity price : Q)
    (e : TradingEngine) :
  mode e = PAPER →
  positions (portfolio e) !! symbol = None →
  let r := placeOrder env symbol "SELL" quantity "MARKET" price e in
  (r.1 ≠ "" →
   ∃ order,
     filled_orders r.2 !! r.1 = Some order
     ∧ pending_orders r.2 !! r.1 = None
     ∧ order_status order = "FILLED"
     ∧ order_symbol order = symbol ∧ order_side order = "SELL"
     ∧ order_quantity order = quantity)
  ∧ cash_balance (portfolio r.2) = cash_balance (portfolio e)
  ∧ positions (portfolio r.2) = positions (portfolio e).
Proof.
  intros Hmode Hnone r. subst r.
  destruct (Qle_bool quantity 0) eqn:Hq.
  { rewrite placeOrder_rejected by auto. cbn. by repeat split. }
  destruct (checkRiskLimits symbol quantity price e) eqn:Hrisk.
  2:{ rewrite placeOrder_rejected by auto. cbn. by repeat split. }
  rewrite (placeOrder_accepted _ _ _ _ _ _ Hq Hrisk), Hmode.
  cbn [String.eqb Ascii.eqb Bool.eqb fst snd].
  unfold simulateFill. cbn [order_type String.eqb Ascii.eqb Bool.eqb].
  rewrite executeMarketOrder_sell_no_position by (cbn; auto).
  cbn [fst snd order_id set_orders filled_orders pending_orders portfolio].
  split; [|by split].
  intros _. eexists. split; [apply lookup_insert_eq|].
  split; [apply lookup_delete_eq|]. by repeat split.
Qed.

(** C8.  [cancelOrder] takes an order out of the pending-order table exactly
    when the table holds it with status PENDING; the filled-order table and
    the portfolio (which carries the effect of every recorded fill) are the
    same after the call, as is every pending order under another
    identifier. *)
Theorem cancelOrder_only_pending (id : string) (e : TradingEngine) :
  let r := cancelOrder id e in
  ((is_Some (pending_orders e !! id) ∧ pending_orders r.2 !! id = None)
   ↔ ∃ order, pending_orders e !! id = Some order
              ∧ order_status order = "PENDING")
  ∧ (∀ id', id' ≠ id → pending_orders r.2 !! id' = pending_orders e !! id')
  ∧ filled_orders r.2 = filled_orders e
  ∧ portfolio r.2 = portfolio e
  ∧ peak_balance r.2 = peak_balance e.
Proof.
  unfold cancelOrder.
  destruct (pending_orders e !! id) as [order|] eqn:Hlook.
  - destruct (String.eqb (order_status order) "PENDING") eqn:Hst; cbn.
    + apply String.eqb_eq in Hst.
      split; [|split; [|by repeat split]].
      * split; [intros _; by exists order|].
        intros _. split; [by exists order|apply lookup_delete_eq].
      * intros id' Hne. by apply lookup_delete_ne.
    + apply String.eqb_neq in Hst.
      split; [|by repeat split].
      split; [intros [_ Habs]; congruence|].
      intros (o & Ho & Hp). congruence.
  - cbn. split; [|by repeat split].
    split; [intros [[o Ho] _]; congruence|].
    intros (o & Ho & _). congruence.
Qed.

End Orders.

(** ** The boundary scenario *)

(** C4, as stated, fails: in the scenario the second order is not turned
    down by the cash check. *)
Lemma boundary_order_not_rejected_for_cash :
  ¬ (let first := placeOrder env0 "BTC" "BUY" 0.05 "MARKET" 100000 engine0 in
     let second := placeOrder env0 "BTC" "BUY" 0.1 "MARKET" 100000 first.2 in
     riskVerdict "BTC" 0.05 100000 engine0 = RiskOk
     ∧ first.1 ≠ ""
     ∧ second.1 = ""
     ∧ riskVerdict "BTC" 0.1 100000 first.2 = InsufficientFunds).
Proof.
  intros (_ & _ & _ & Hcash). vm_compute in Hcash. discriminate Hcash.
Qed.

(** C4, amended.  With cash 10000, [max_position_size] 5000 and the market
    price 100000 passed as the order's price, the BUY of 0.05 BTC (notional
    exactly 5000) passes every risk check and gets an identifier; the BUY of
    0.1 BTC that follows (notional 10000) is rejected and changes nothing,
    and the check that rejects it is the position-size limit, which comes
    before the cash check (which it would fail as well). *)
Theorem boundary_order_rejected_by_size_limit (env : Env) :
  let first := placeOrder env "BTC" "BUY" 0.05 "MARKET" 100000 engine0 in
  let second := placeOrder env "BTC" "BUY" 0.1 "MARKET" 100000 first.2 in
  0.05 * 100000 == max_position_size engine0
  ∧ riskVerdict "BTC" 0.05 100000 engine0 = RiskOk
  ∧ first.1 ≠ ""
  ∧ second.1 = ""
  ∧ second.2 = first.2
  ∧ riskVerdict "BTC" 0.1 100000 first.2 = PositionSizeExceeded
  ∧ cash_balance (portfolio first.2) < 0.1 * 100000.
Proof.
  cbv zeta. split; [reflexivity|]. split; [vm_compute; reflexivity|].
  split; [vm_compute; discriminate|].
  assert (Hr2 : riskVerdict "BTC" 0.1 100000
                  (placeOrder env "BTC" "BUY" 0.05 "MARKET" 100000 engine0).2
                = PositionSizeExceeded) by (vm_compute; reflexivity).
  assert (Hrej : placeOrder env "BTC" "BUY" 0.1 "MARKET" 100000
                   (placeOrder env "BTC" "BUY" 0.05 "MARKET" 100000 engine0).2
                 = ("", (placeOrder env "BTC" "BUY" 0.05 "MARKET" 100000
                           engine0).2)).
  { apply placeOrder_rejected. right. unfold checkRiskLimits.
    rewrite Hr2. reflexivity. }
  rewrite Hrej. cbn [fst snd].
  split; [reflexivity|]. split; [reflexivity|]. split; [exact Hr2|].
  vm_compute; reflexivity.
Qed.

(** ** The message channel *)

Section Channel.

Local Open Scope nat_scope.

Lemma find_lt (c : ascii) (message : IPC.bytes) (pos : nat) :
  IPC.find c message = Some pos → pos < length message.
Proof.
  revert pos. induction message as [|x rest IH]; intros pos; cbn.
  - discriminate.
  - destruct (Ascii.eqb x c).
    + intros [= <-]. lia.
    + destruct (IPC.find c rest) as [n|]; cbn; [|discriminate].
      intros [= <-]. specialize (IH n eq_refl). lia.
Qed.

Lemma find_absent (c : ascii) (message : IPC.bytes) :
  c ∉ message → IPC.find c message = None.
Proof.
  induction message as [|x rest IH]; intros Hnot; cbn; [reflexivity|].
  destruct (Ascii.eqb x c) eqn:Heq.
  - apply Ascii.eqb_eq in Heq. subst x. exfalso. apply Hnot. left.
  - rewrite IH; [reflexivity|]. intros Hin. apply Hnot. by right.
Qed.

Lemma find_first (c : ascii) (message rest : IPC.bytes) :
  c ∉ message → IPC.find c (message ++ c :: rest) = Some (length message).
Proof.
  induction message as [|x message IH]; intros Hnot; cbn.
  - rewrite Ascii.eqb_refl. reflexivity.
  - destruct (Ascii.eqb x c) eqn:Heq.
    + apply Ascii.eqb_eq in Heq. subst x. exfalso. apply Hnot. left.
    + rewrite IH; [reflexivity|]. intros Hin. apply Hnot. by right.
Qed.

Lemma c_str_no_NUL (buffer : IPC.bytes) :
  IPC.NUL ∉ buffer → IPC.c_str buffer = buffer.
Proof.
  induction buffer as [|x rest IH]; intros Hnot; cbn; [reflexivity|].
  destruct (Ascii.eqb x IPC.NUL) eqn:Heq.
  - apply Ascii.eqb_eq in Heq. subst x. exfalso. apply Hnot. left.
  - rewrite IH; [reflexivity|]. intros Hin. apply Hnot. by right.
Qed.

Lemma c_str_length (buffer : IPC.bytes) :
  length (IPC.c_str buffer) ≤ length buffer.
Proof.
  induction buffer as [|x rest IH]; cbn; [lia|].
  destruct (Ascii.eqb x IPC.NUL); cbn; lia.
Qed.

Lemma c_str_subset (c : ascii) (buffer : IPC.bytes) :
  c ∈ IPC.c_str buffer → c ∈ buffer.
Proof.
  induction buffer as [|x rest IH]; cbn; [done|].
  destruct (Ascii.eqb x IPC.NUL); [by intros ?%elem_of_nil|].
  intros [->|Hin]%elem_of_cons; [left|right; auto].
Qed.

(** *** Enough fuel *)

(** [length message] iterations are all the splitting loop can use. *)
Lemma split_loop_fuel (fuel1 fuel2 : nat) (message : IPC.bytes)
    (queue : list IPC.bytes) :
  length message ≤ fuel1 → length message ≤ fuel2 →
  IPC.split_loop fuel1 message queue = IPC.split_loop fuel2 message queue.
Proof.
  revert fuel2 message queue.
  induction fuel1 as [|fuel1 IH]; intros fuel2 message queue H1 H2.
  - destruct message; [|cbn in H1; lia]. by destruct fuel2.
  - destruct fuel2 as [|fuel2].
    + destruct message; [|cbn in H2; lia]. reflexivity.
    + cbn. destruct (IPC.find IPC.newline message) as [pos|] eqn:Hfind;
        [|reflexivity].
      apply find_lt in Hfind.
      apply IH; rewrite length_drop; lia.
Qed.

Lemma readerLoop_body_shrinks (ipc : IPC.IPCManager) (fifo : IPC.bytes) :
  fifo ≠ [] →
  length (IPC.readerLoop_body ipc fifo).2 < length fifo.
Proof.
  intros Hne. unfold IPC.readerLoop_body, IPC.os_read. cbn.
  rewrite length_drop. destruct fifo; [done|]. cbn. lia.
Qed.

(** [length fifo] passes are all the reader can make before it blocks. *)
Lemma readerLoop_fuel (fuel1 fuel2 : nat) (ipc : IPC.IPCManager)
    (fifo : IPC.bytes) :
  length fifo ≤ fuel1 → length fifo ≤ fuel2 →
  IPC.readerLoop fuel1 ipc fifo = IPC.readerLoop fuel2 ipc fifo.
Proof.
  revert fuel2 ipc fifo.
  induction fuel1 as [|fuel1 IH]; intros fuel2 ipc fifo H1 H2.
  - destruct fifo; [|cbn in H1; lia].
    destruct fuel2; [reflexivity|]. cbn. by destruct (IPC.running ipc).
  - destruct fuel2 as [|fuel2].
    + destruct fifo; [|cbn in H2; lia]. cbn. by destruct (IPC.running ipc).
    + cbn [IPC.readerLoop]. destruct (IPC.running ipc); [|reflexivity].
      destruct fifo as [|b fifo]; [reflexivity|].
      pose proof (readerLoop_body_shrinks ipc (b :: fifo) ltac:(done))
        as Hshrink.
      destruct (IPC.readerLoop_body ipc (b :: fifo)) as [ipc' fifo'].
      cbn [snd] in Hshrink. apply IH; lia.
Qed.

(** *** Whole frames *)

Lemma sendMessage_whole (message : IPC.bytes) (ipc : IPC.IPCManager)
    (fifo : IPC.bytes) :
  IPC.connected ipc = true →
  ∃ ipc', IPC.sendMessage (IPC.whole_write message) message ipc fifo
          = (true, ipc', fifo ++ message ++ [IPC.newline])
          ∧ IPC.connected ipc' = true.
Proof.
  intros Hconn. unfold IPC.sendMessage, IPC.whole_write.
  cbn [IPC.open_result IPC.write_result]. rewrite Hconn. cbn [negb].
  assert (Hfd : ((if (IPC.write_fd ipc =? -1)%Z then IPC.opened_fd
                  else IPC.write_fd ipc) =? -1)%Z = false).
  { destruct (IPC.write_fd ipc =? -1)%Z eqn:Hw; [done|exact Hw]. }
  rewrite Hfd.
  assert (Hn : (Z.of_nat (length (message ++ [IPC.newline])) =? -1)%Z
               = false) by (apply Z.eqb_neq; lia).
  rewrite Hn, Nat2Z.id, firstn_all. by eexists.
Qed.

(** *** Short messages arrive *)

(** A message without newline and NUL whose frame fits one [read] comes out
    of the round trip as it went in (the empty message as the empty result
    of a timeout). *)
Lemma round_trip_short (m : IPC.bytes) :
  IPC.newline ∉ m → IPC.NUL ∉ m → length m < IPC.buffer_size - 1 →
  IPC.round_trip m = m.
Proof.
  intros Hnl Hnul Hlen. unfold IPC.buffer_size in Hlen.
  unfold IPC.round_trip.
  destruct (sendMessage_whole m IPC.initialized [] eq_refl)
    as (sender & -> & _).
  cbn [app]. rewrite length_app. cbn [length]. rewrite Nat.add_1_r.
  cbn [IPC.readerLoop IPC.start IPC.running IPC.initialized].
  destruct (m ++ [IPC.newline]) as [|b fifo] eqn:Hfifo.
  { by destruct m. }
  rewrite <- Hfifo. clear b fifo Hfifo.
  unfold IPC.readerLoop_body, IPC.os_read.
  assert (Hfit : length (m ++ [IPC.newline]) ≤ IPC.buffer_size - 1).
  { unfold IPC.buffer_size. rewrite length_app. cbn [length]. lia. }
  rewrite (take_ge _ _ Hfit), (drop_ge _ _ Hfit).
  rewrite c_str_no_NUL.
  2:{ intros [Hin|Hin]%elem_of_app; [done|].
      apply list_elem_of_singleton in Hin. discriminate Hin. }
  assert (Hrd : ∀ fuel ipc, IPC.readerLoop fuel ipc [] = (ipc, [])).
  { intros [|fuel] ipc; cbn; [reflexivity|]. by destruct (IPC.running ipc). }
  rewrite Hrd. clear Hrd.
  rewrite length_app. cbn [length]. rewrite Nat.add_1_r.
  cbn [IPC.split_loop]. rewrite (find_first _ _ [] Hnl).
  rewrite take_app_length.
  replace (drop (S (length m)) (m ++ [IPC.newline])) with (@nil ascii).
  2:{ symmetry. apply drop_ge. rewrite length_app. cbn. lia. }
  assert (Hsp : ∀ fuel q, IPC.split_loop fuel [] q = q).
  { intros [|fuel] q; reflexivity. }
  rewrite Hsp. destruct m; reflexivity.
Qed.

(** *** Long messages do not *)

Lemma split_loop_no_newline (fuel : nat) (message : IPC.bytes)
    (queue : list IPC.bytes) :
  IPC.newline ∉ message → IPC.split_loop fuel message queue = queue.
Proof.
  intros Hnl. destruct fuel; cbn; [reflexivity|].
  by rewrite find_absent.
Qed.

(** Every message the splitting loop queues is shorter than the text it
    splits. *)
Lemma split_loop_bound (n fuel : nat) (message : IPC.bytes)
    (queue : list IPC.bytes) :
  Forall (λ x, length x < n) queue → length message ≤ n →
  Forall (λ x, length x < n) (IPC.split_loop fuel message queue).
Proof.
  revert message queue.
  induction fuel as [|fuel IH]; intros message queue Hq Hlen; cbn; [done|].
  destruct (IPC.find IPC.newline message) as [pos|] eqn:Hfind; [|done].
  apply find_lt in Hfind. apply IH.
  - destruct (take pos message) eqn:Htake; [done|].
    rewrite <- Htake. apply Forall_app. split; [done|].
    apply Forall_singleton. rewrite length_take. lia.
  - rewrite length_drop. lia.
Qed.

(** Every message the reader queues is shorter than what was in the FIFO. *)
Lemma readerLoop_bound (n fuel : nat) (ipc : IPC.IPCManager)
    (fifo : IPC.bytes) :
  Forall (λ x, length x < n) (IPC.message_queue ipc) → length fifo ≤ n →
  Forall (λ x, length x < n)
         (IPC.message_queue (IPC.readerLoop fuel ipc fifo).1).
Proof.
  revert ipc fifo.
  induction fuel as [|fuel IH]; intros ipc fifo Hq Hlen;
    cbn [IPC.readerLoop]; [done|].
  destruct (IPC.running ipc); [|done].
  destruct fifo as [|b fifo]; [done|].
  unfold IPC.readerLoop_body, IPC.os_read. apply IH.
  - cbn [IPC.message_queue]. apply split_loop_bound; [done|].
    etrans; [apply c_str_length|]. rewrite length_take. lia.
  - rewrite length_drop. lia.
Qed.

(** A message without newline whose frame, written whole, does not fit one
    [read] never comes out as it went in. *)
Lemma round_trip_long (m : IPC.bytes) :
  IPC.newline ∉ m → IPC.buffer_size - 1 ≤ length m →
  IPC.round_trip m ≠ m.
Proof.
  intros Hnl Hlen. unfold IPC.buffer_size in Hlen.
  unfold IPC.round_trip.
  destruct (sendMessage_whole m IPC.initialized [] eq_refl)
    as (sender & -> & _).
  cbn [app]. rewrite length_app. cbn [length]. rewrite Nat.add_1_r.
  cbn [IPC.readerLoop IPC.start IPC.running].
  destruct (m ++ [IPC.newline]) as [|b fifo] eqn:Hfifo.
  { by destruct m. }
  rewrite <- Hfifo. clear b fifo Hfifo.
  unfold IPC.readerLoop_body, IPC.os_read, IPC.buffer_size.
  rewrite take_app_le, drop_app_le by lia.
  rewrite split_loop_no_newline.
  2:{ intros Hin%c_str_subset. apply Hnl.
      by apply (subseteq_take (4096 - 1) m). }
  match goal with |- context [IPC.readerLoop ?fuel ?ipc ?fifo] =>
    pose proof (readerLoop_bound (length m - 4094) fuel ipc fifo) as Hb;
    destruct (IPC.readerLoop fuel ipc fifo) as [peer rest]
  end.
  cbn [fst] in Hb. specialize (Hb ltac:(constructor)).
  assert (Hfl : length (drop (4096 - 1) m ++ [IPC.newline])
                ≤ length m - 4094).
  { rewrite length_app, length_drop. cbn [length]. lia. }
  specialize (Hb Hfl). unfold IPC.receiveMessage.
  destruct (IPC.message_queue peer) as [|x queue]; cbn [fst].
  - intros <-. cbn in Hlen. lia.
  - apply Forall_cons_1 in Hb as [Hx _]. intros ->. lia.
Qed.

(** C6 fails on the code for a message of 4095 bytes ["a"]: it has no
    newline, the reader takes it out of the FIFO in one [read] that leaves
    the delimiter behind, finds no newline in it and drops it, so that
    [receiveMessage] times out with the empty result. *)
Theorem round_trip_drops_4095_bytes :
  let m := replicate 4095 "a"%char in
  (IPC.newline ∉ m) ∧ (IPC.NUL ∉ m)
  ∧ IPC.round_trip m = [] ∧ IPC.round_trip m ≠ m.
Proof.
  cbv zeta. split; [|split].
  - intros [Heq _]%elem_of_replicate. discriminate Heq.
  - intros [Heq _]%elem_of_replicate. discriminate Heq.
  - assert (Hrt : IPC.round_trip (replicate 4095 "a"%char) = [])
      by (vm_compute; reflexivity).
    split; [exact Hrt|]. rewrite Hrt. discriminate.
Qed.

(** A NUL byte in a message cuts it off as well: the reader builds its
    string from the buffer as a C string. *)
Lemma round_trip_stops_at_NUL :
  IPC.round_trip ["a"; IPC.NUL; "b"]%char = [].
Proof. reflexivity. Qed.

End Channel.

(** ** Stop-loss and take-profit orders *)

Section StopOrders.

Variable env : Env.

(** What [updatePortfolio] leaves alone. *)
Lemma updatePortfolio_frame (order : Order) (e : TradingEngine) :
  mode (updatePortfolio env order e) = mode e
  ∧ pending_orders (updatePortfolio env order e) = pending_orders e
  ∧ filled_orders (updatePortfolio env order e) = filled_orders e.
Proof.
  unfold updatePortfolio, updatePortfolio_pnl.
  destruct (String.eqb (order_side order) "BUY").
  { by destruct (positions (portfolio e) !! order_symbol order). }
  destruct (String.eqb (order_side order) "SELL"); [|done].
  by destruct (positions (portfolio e) !! order_symbol order).
Qed.

(** A SELL fill for the whole position erases its entry. *)
Lemma updatePortfolio_sell_all (order : Order) (pos : Position)
    (e : TradingEngine) :
  order_side order = "SELL" →
  positions (portfolio e) !! order_symbol order = Some pos →
  order_quantity order == pos_quantity pos →
  positions (portfolio (updatePortfolio env order e))
  = delete (order_symbol order) (positions (portfolio e)).
Proof.
  intros Hside Hsome Hall. unfold updatePortfolio, updatePortfolio_pnl.
  rewrite Hside, Hsome. cbn.
  by rewrite (Qle_bool_diag_sub _ _ Hall).
Qed.

(** An accepted MARKET order in paper mode is executed at once. *)
Lemma placeOrder_paper_market (symbol side : string) (quantity price : Q)
    (e : TradingEngine) :
  mode e = PAPER →
  Qle_bool quantity 0 = false →
  checkRiskLimits symbol quantity price e = true →
  let id := (generateOrderId env e).1 in
  let e1 := (generateOrderId env e).2 in
  let order :=
    mkOrder id symbol side quantity price "MARKET" "PENDING" (clock env) in
  let fill_price :=
    simulateSpread PaperTradingSimulator_new
      (simulateSlippage PaperTradingSimulator_new
         (if Qlt_bool 0 price then price else 100000) quantity side) in
  placeOrder env symbol side quantity "MARKET" price e
  = (id,
     (executeMarketOrder env order fill_price
        (set_orders (<[id := order]> (pending_orders e1))
                    (filled_orders e1) e1)).2).
Proof.
  intros Hmode Hq Hrisk.
  rewrite (placeOrder_accepted _ _ _ _ _ _ _ Hq Hrisk), Hmode.
  reflexivity.
Qed.

(** In paper mode a SELL MARKET order for all of a position is either
    rejected, and nothing changes, or filled, and then the position is gone
    and the order is in the filled table. *)
Lemma paper_sell_all (k : string) (p : Position) (price : Q)
    (e : TradingEngine) :
  mode e = PAPER →
  positions (portfolio e) !! k = Some p →
  let r := placeOrder env k "SELL" (pos_quantity p) "MARKET" price e in
  r = ("", e)
  ∨ (mode r.2 = PAPER
     ∧ positions (portfolio r.2) = delete k (positions (portfolio e))
     ∧ pending_orders r.2 = delete r.1 (pending_orders e)
     ∧ ∃ o, order_symbol o = k
            ∧ filled_orders r.2 = <[r.1 := o]> (filled_orders e)).
Proof.
  intros Hmode Hlook r. subst r.
  destruct (Qle_bool (pos_quantity p) 0) eqn:Hq.
  { left. apply placeOrder_rejected. by left. }
  destruct (checkRiskLimits k (pos_quantity p) price e) eqn:Hrisk.
  2:{ left. apply placeOrder_rejected. by right. }
  right. rewrite (placeOrder_paper_market _ _ _ _ _ Hmode Hq Hrisk).
  cbn [fst snd]. unfold executeMarketOrder. cbn [fst snd].
  match goal with |- context [updatePortfolio env ?o ?e2] =>
    pose proof (updatePortfolio_frame o e2) as (Hm & Hp & Hf);
    pose proof (updatePortfolio_sell_all o p e2 eq_refl Hlook
                  ltac:(reflexivity)) as Hpos
  end.
  cbn [mode set_orders pending_orders filled_orders portfolio] in *.
  split; [by rewrite Hm|]. split; [exact Hpos|].
  split.
  - cbn [order_id filled_at]. rewrite Hp. apply delete_insert_eq.
  - eexists. split; [|cbn [order_id filled_at]; rewrite Hf; reflexivity].
    reflexivity.
Qed.

End StopOrders.

(** ** Marking positions at their quotes *)

(** What [updatePositionPrices] does to the portfolio when it places no
    order that is filled: [mark] for one entry, [marks] for a list of
    them. *)

Lemma set_portfolio_id (e : TradingEngine) :
  set_portfolio
    (mkPortfolio (cash_balance (portfolio e)) (total_value (portfolio e))
                 (positions (portfolio e))) e
  = e.
Proof. by destruct e as [? [] ? ? ? ? ? ? ? ? ?]. Qed.

(** A marking changes the positions map and nothing else. *)
Lemma mark_eq (prices : gmap string Q) (k : string) (e : TradingEngine) :
  mark prices k e
  = set_portfolio
      (mkPortfolio (cash_balance (portfolio e)) (total_value (portfolio e))
                   (positions (portfolio (mark prices k e)))) e.
Proof.
  unfold mark.
  destruct (positions (portfolio e) !! k); [destruct (prices !! k)|];
    cbn [portfolio positions set_portfolio];
    by rewrite ?set_portfolio_id.
Qed.

Lemma marks_eq (prices : gmap string Q) (symbols : list string)
    (e : TradingEngine) :
  marks prices symbols e
  = set_portfolio
      (mkPortfolio (cash_balance (portfolio e)) (total_value (portfolio e))
                   (positions (portfolio (marks prices symbols e)))) e.
Proof.
  unfold marks. revert e.
  induction symbols as [|k symbols IH]; intros e; cbn [fold_left].
  { by rewrite set_portfolio_id. }
  rewrite IH at 1.
  generalize (positions
                (portfolio (fold_left (λ e0 symbol, mark prices symbol e0)
                              symbols (mark prices k e)))).
  intros m. by rewrite (mark_eq prices k e).
Qed.

Lemma mark_lookup (prices : gmap string Q) (k : string) (e : TradingEngine)
    (s : string) :
  positions (portfolio (mark prices k e)) !! s
  = if decide (s = k)
    then remarked prices k <$> positions (portfolio e) !! k
    else positions (portfolio e) !! s.
Proof.
  unfold mark, remarked.
  destruct (positions (portfolio e) !! k) as [pos|] eqn:Hk.
  - destruct (prices !! k) as [price|]; cbn [portfolio positions set_portfolio].
    + destruct (decide (s = k)) as [->|];
        [by rewrite lookup_insert_eq|by rewrite lookup_insert_ne].
    + by destruct (decide (s = k)) as [->|].
  - by destruct (decide (s = k)) as [->|].
Qed.

Lemma marks_lookup (prices : gmap string Q) (symbols : list string)
    (e : TradingEngine) (s : string) :
  NoDup symbols →
  positions (portfolio (marks prices symbols e)) !! s
  = if decide (s ∈ symbols)
    then remarked prices s <$> positions (portfolio e) !! s
    else positions (portfolio e) !! s.
Proof.
  unfold marks. revert e.
  induction symbols as [|k symbols IH]; intros e Hnodup; cbn [fold_left].
  { rewrite decide_False; [done|]. by intros ?%elem_of_nil. }
  apply NoDup_cons in Hnodup as [Hk Hnodup].
  rewrite IH, mark_lookup by done.
  destruct (decide (s = k)) as [->|Hne].
  - rewrite decide_False by done. by rewrite decide_True by left.
  - destruct (decide (s ∈ symbols)) as [H1|H1],
             (decide (s ∈ k :: symbols)) as [H2|H2]; try done.
    + exfalso. apply H2. by right.
    + exfalso. by apply elem_of_cons in H2 as [?|?].
Qed.

(** All the entries marked: what the loop leaves when it places no order. *)
Lemma marks_all_lookup (prices : gmap string Q) (e : TradingEngine)
    (s : string) :
  positions (portfolio
               (marks prices (sorted_keys (positions (portfolio e))) e)) !! s
  = remarked prices s <$> positions (portfolio e) !! s.
Proof.
  rewrite marks_lookup by apply sorted_keys_NoDup.
  destruct (decide _) as [|Hnot]; [done|].
  rewrite sorted_keys_elem_of in Hnot.
  destruct (positions (portfolio e) !! s); [|done].
  exfalso. by apply Hnot.
Qed.



Lemma marks_frame (prices : gmap string Q) (symbols : list string)
    (e : TradingEngine) :
  mode (marks prices symbols e) = mode e
  ∧ pending_orders (marks prices symbols e) = pending_orders e
  ∧ filled_orders (marks prices symbols e) = filled_orders e
  ∧ stop_loss_percentage (marks prices symbols e) = stop_loss_percentage e
  ∧ take_profit_percentage (marks prices symbols e)
    = take_profit_percentage e
  ∧ cash_balance (portfolio (marks prices symbols e))
    = cash_balance (portfolio e).
Proof. rewrite marks_eq. by repeat split. Qed.

Lemma mark_keyed (prices : gmap string Q) (k : string) (e : TradingEngine) :
  positions_keyed e → positions_keyed (mark prices k e).
Proof.
  intros Hkeyed. unfold mark.
  destruct (positions (portfolio e) !! k) as [pos|] eqn:Hk; [|done].
  destruct (prices !! k) as [price|]; [|done].
  unfold positions_keyed. cbn [portfolio positions set_portfolio].
  apply map_Forall_insert_2; [|done]. apply (Hkeyed _ _ Hk).
Qed.


(** ** The iterations of [updatePositionPrices] *)

Section Steps.

Variable env : Env.





(** In paper mode the sale of all of a position is rejected, or it is
    filled and the position is erased. *)
Lemma paper_sale_cases (k : string) (position : Position) (price : Q)
    (e : TradingEngine) :
  mode e = PAPER →
  positions (portfolio e) !! k = Some position →
  pos_symbol position = k →
  let e' := (placeOrder env (pos_symbol position) "SELL"
               (pos_quantity position) "MARKET" price e).2 in
  e' = e ∨ positions (portfolio e') !! k = None.
Proof.
  intros Hmode Hk Hsym. cbv zeta. rewrite Hsym.
  destruct (paper_sell_all env k position price e Hmode Hk)
    as [-> | (_ & -> & _)]; [by left|right].
  apply lookup_delete_eq.
Qed.

(** An iteration with a result, in paper mode, has only marked its entry:
    an order placed there is filled and erases the entry under the loop. *)
Lemma updatePositionPrices_step_paper (prices : gmap string Q)
    (e e' : TradingEngine) (k : string) :
  mode e = PAPER → positions_keyed e →
  updatePositionPrices_step env prices e k = Some e' →
  e' = mark prices k e.
Proof.
  intros Hmode Hkeyed. unfold updatePositionPrices_step, mark.
  destruct (positions (portfolio e) !! k) as [p0|] eqn:Hk;
    [|by intros [= <-]].
  destruct (prices !! k) as [price|] eqn:Hp; [|by intros [= <-]].
  pose proof (Hkeyed k p0 Hk) as Hsym. cbn beta in Hsym.
  cbv zeta. fold (marked_at p0 price).
  set (e1 := set_portfolio _ e).
  assert (Hmode1 : mode e1 = PAPER) by done.
  assert (Hk1 : positions (portfolio e1) !! k = Some (marked_at p0 price)).
  { unfold e1. cbn [portfolio positions set_portfolio].
    apply lookup_insert_eq. }
  assert (Hsale : ∀ x,
             let e2 := (placeOrder env (pos_symbol (marked_at p0 price))
                          "SELL" (pos_quantity (marked_at p0 price))
                          "MARKET" x e1).2 in
             e2 = e1 ∨ positions (portfolio e2) !! k = None).
  { intros x. by apply paper_sale_cases. }
  unfold applyStopLoss, applyTakeProfit.
  destruct (Qle_bool (stop_loss_percentage e1) _).
  - destruct (Hsale (current_price (marked_at p0 price))) as [-> | ->];
      [|done].
    rewrite Hk1. destruct (Qle_bool (take_profit_percentage e1) _).
    + destruct (Hsale (current_price (marked_at p0 price))) as [-> | ->];
        [|done].
      rewrite Hk1. by intros [= <-].
    + rewrite Hk1. by intros [= <-].
  - rewrite Hk1. destruct (Qle_bool (take_profit_percentage e1) _).
    + destruct (Hsale (current_price (marked_at p0 price))) as [-> | ->];
        [|done].
      rewrite Hk1. by intros [= <-].
    + rewrite Hk1. by intros [= <-].
Qed.

Lemma updatePositionPrices_loop_paper (prices : gmap string Q)
    (symbols : list string) (e e' : TradingEngine) :
  mode e = PAPER → positions_keyed e →
  updatePositionPrices_loop env prices symbols e = Some e' →
  e' = marks prices symbols e.
Proof.
  unfold marks. revert e.
  induction symbols as [|k symbols IH]; intros e Hmode Hkeyed;
    cbn [updatePositionPrices_loop fold_left]; [by intros [= <-]|].
  destruct (updatePositionPrices_step env prices e k) as [e1|] eqn:Hstep;
    [|done].
  apply updatePositionPrices_step_paper in Hstep as ->; [|done..].
  apply IH; [|by apply mark_keyed].
  by rewrite mark_eq.
Qed.

End Steps.

(** ** Calls of [updatePositionPrices] *)

Section Updates.

Variable env : Env.


(** A call in paper mode that has a result has placed no order. *)
Lemma updatePositionPrices_paper (prices : gmap string Q)
    (e e' : TradingEngine) :
  mode e = PAPER → positions_keyed e →
  updatePositionPrices env prices e = Some e' →
  pending_orders e' = pending_orders e
  ∧ filled_orders e' = filled_orders e
  ∧ order_counter e' = order_counter e.
Proof.
  intros Hmode Hkeyed. unfold updatePositionPrices.
  destruct (updatePositionPrices_loop _ _ _ _) as [e1|] eqn:Hloop; [|done].
  apply updatePositionPrices_loop_paper in Hloop as ->; [|done..].
  intros [= <-]. rewrite marks_eq. by repeat split.
Qed.

End Updates.


(** In paper mode the order is filled at once.  With 49 AAA and 20 BBB held
    and BBB quoted above its take-profit, the sale of BBB erases the entry
    the loop is visiting, and the call has no result. *)
Lemma paper_fill_has_no_result :
  updatePositionPrices env0 aaa_down_bbb_up paper_engine = None.
Proof. vm_compute. reflexivity. Qed.


(** ** The invariant on the positions map *)

Section Keyed.

Variable env : Env.

Lemma TradingEngine_new_keyed (m : TradingMode) (balance : Q) :
  positions_keyed (TradingEngine_new m balance).
Proof. apply map_Forall_empty. Qed.

Lemma initialize_keyed (open_positions : list Position) (e : TradingEngine) :
  positions_keyed e → positions_keyed (initialize open_positions e).
Proof.
  unfold initialize. revert e.
  induction open_positions as [|pos rest IH]; intros e Hk; cbn; [done|].
  apply IH. unfold positions_keyed. cbn. by apply map_Forall_insert_2.
Qed.

Lemma updatePortfolio_keyed (order : Order) (e : TradingEngine) :
  positions_keyed e → positions_keyed (updatePortfolio env order e).
Proof.
  intros Hk. unfold updatePortfolio, updatePortfolio_pnl.
  destruct (String.eqb (order_side order) "BUY").
  { destruct (positions (portfolio e) !! order_symbol order) as [pos|] eqn:Hl;
      unfold positions_keyed; cbn; apply map_Forall_insert_2; try done.
    apply (Hk _ _ Hl). }
  destruct (String.eqb (order_side order) "SELL"); [|done].
  destruct (positions (portfolio e) !! order_symbol order) as [pos|] eqn:Hl;
    [|done].
  unfold positions_keyed. cbn.
  destruct (Qle_bool _ 0).
  - by apply map_Forall_delete.
  - apply map_Forall_insert_2; [|done]. apply (Hk _ _ Hl).
Qed.

Lemma simulateFill_keyed (order : Order) (p : Q) (e : TradingEngine) :
  positions_keyed e → positions_keyed (simulateFill env order p e).2.
Proof.
  intros Hk. unfold simulateFill, executeMarketOrder, executeLimitOrder.
  destruct (String.eqb (order_type order) "MARKET").
  { by apply updatePortfolio_keyed. }
  destruct (String.eqb (order_type order) "LIMIT"); [|done].
  destruct (simulateOrderFill _ _ _ _); [|done].
  by apply updatePortfolio_keyed.
Qed.

Lemma placeOrder_keyed (symbol side : string) (quantity : Q) (type : string)
    (price : Q) (e : TradingEngine) :
  positions_keyed e →
  positions_keyed (placeOrder env symbol side quantity type price e).2.
Proof.
  intros Hk. unfold placeOrder.
  destruct (Qle_bool quantity 0); [done|].
  destruct (negb _); [done|].
  unfold generateOrderId. cbn [snd order_id mode set_orders set_order_counter].
  destruct (mode e); [|done].
  destruct (String.eqb type "MARKET"); [|done].
  by apply simulateFill_keyed.
Qed.

Lemma processTradingSignal_keyed (signal : TradingSignal) (e : TradingEngine) :
  positions_keyed e → positions_keyed (processTradingSignal env signal e).
Proof.
  intros Hk. unfold processTradingSignal, placeOrder_default.
  destruct (Qle_bool _ 0); [done|].
  destruct (positions (portfolio e) !! sig_symbol signal);
    destruct (String.eqb (action signal) "BUY" && _);
    try (by apply placeOrder_keyed);
    destruct (String.eqb (action signal) "SELL" && _);
    try (by apply placeOrder_keyed); done.
Qed.

Lemma applyStopLoss_keyed (position : Position) (price : Q)
    (e : TradingEngine) :
  positions_keyed e → positions_keyed (applyStopLoss env position price e).
Proof.
  intros Hk. unfold applyStopLoss. destruct (Qle_bool _ _); [|done].
  by apply placeOrder_keyed.
Qed.

Lemma applyTakeProfit_keyed (position : Position) (price : Q)
    (e : TradingEngine) :
  positions_keyed e → positions_keyed (applyTakeProfit env position price e).
Proof.
  intros Hk. unfold applyTakeProfit. destruct (Qle_bool _ _); [|done].
  by apply placeOrder_keyed.
Qed.

Lemma updatePositionPrices_step_keyed (prices : gmap string Q)
    (e e' : TradingEngine) (k : string) :
  positions_keyed e →
  updatePositionPrices_step env prices e k = Some e' →
  positions_keyed e'.
Proof.
  intros Hk. unfold updatePositionPrices_step.
  destruct (positions (portfolio e) !! k) as [p0|] eqn:Hlook;
    [|by intros [= <-]].
  destruct (prices !! k) as [price|]; [|by intros [= <-]].
  cbv zeta. set (position := mkPosition _ _ _ _ _ _).
  set (e1 := set_portfolio _ e).
  assert (Hk1 : positions_keyed e1).
  { unfold positions_keyed, e1. cbn [portfolio positions set_portfolio].
    apply map_Forall_insert_2; [|done]. apply (Hk _ _ Hlook). }
  pose proof (applyStopLoss_keyed position (current_price position) e1 Hk1)
    as Hk2.
  set (e2 := applyStopLoss env position (current_price position) e1) in *.
  destruct (positions (portfolio e2) !! k) as [position'|]; [|done].
  pose proof (applyTakeProfit_keyed position' (current_price position') e2
                Hk2) as Hk3.
  destruct (positions (portfolio (applyTakeProfit _ _ _ _)) !! k); [|done].
  by intros [= <-].
Qed.

Lemma updatePositionPrices_loop_keyed (prices : gmap string Q)
    (symbols : list string) (e e' : TradingEngine) :
  positions_keyed e →
  updatePositionPrices_loop env prices symbols e = Some e' →
  positions_keyed e'.
Proof.
  revert e. induction symbols as [|k symbols IH]; intros e Hk;
    cbn [updatePositionPrices_loop]; [by intros [= <-]|].
  destruct (updatePositionPrices_step env prices e k) as [e1|] eqn:Hstep;
    [|done].
  apply IH. by eapply updatePositionPrices_step_keyed.
Qed.

Lemma updatePositionPrices_keyed (prices : gmap string Q)
    (e e' : TradingEngine) :
  positions_keyed e →
  updatePositionPrices env prices e = Some e' →
  positions_keyed e'.
Proof.
  intros Hk. unfold updatePositionPrices.
  destruct (updatePositionPrices_loop _ _ _ _) as [e1|] eqn:Hloop; [|done].
  intros [= <-]. change (positions_keyed e1).
  by eapply updatePositionPrices_loop_keyed.
Qed.


End Keyed.

(** ** The properties at work *)

(** With the order's price left at its default of 0.0 the notional that
    [checkRiskLimits] sees is 0: both orders of the boundary scenario are
    accepted and filled at the fallback price, and cash ends below zero. *)
Lemma boundary_orders_with_default_price :
  let first := placeOrder_default env0 "BTC" "BUY" 0.05 engine0 in
  let second := placeOrder_default env0 "BTC" "BUY" 0.1 first.2 in
  first.1 = "ORD_1700000000_1"
  ∧ second.1 = "ORD_1700000000_2"
  ∧ cash_balance (portfolio second.2) < 0.
Proof. cbv zeta. repeat split; vm_compute; reflexivity. Qed.

Lemma buy_fill_decreases_cash_witness :
  cash_balance (portfolio (updatePortfolio env0 buy_btc_1 engine0))
  = 10000 - 0.05 * 100000.
Proof.
  apply (buy_fill_decreases_cash env0 buy_btc_1 engine0); reflexivity.
Defined.

Lemma two_buy_fills_average_entry_witness :
  ∃ pos,
    positions (portfolio engine_after_two_buys) !! "BTC" = Some pos
    ∧ pos_quantity pos = 0.05 + 0.03
    ∧ entry_price pos = (0.05 * 100000 + 0.03 * 90000) / (0.05 + 0.03).
Proof.
  apply (two_buy_fills_average_entry env0 "BTC" buy_btc_1 buy_btc_2 engine0);
    reflexivity.
Defined.

Lemma sell_fill_closes_position_witness :
  let r := updatePortfolio_pnl env0 sell_btc_all engine_after_two_buys in
  cash_balance (portfolio r.1)
  = cash_balance (portfolio engine_after_two_buys) + 0.08 * 110000
  ∧ positions (portfolio r.1) !! "BTC" = None
  ∧ r.2 = Some (0.08 * (110000 - entry_price btc_after_two_buys)).
Proof.
  apply (sell_fill_closes_position env0 sell_btc_all btc_after_two_buys
           engine_after_two_buys); [reflexivity|vm_compute; reflexivity|].
  reflexivity.
Defined.

Lemma paper_sell_without_position_witness :
  let r := placeOrder env0 "BTC" "SELL" 0.01 "MARKET" 100000 engine0 in
  r.1 = "ORD_1700000000_1"
  ∧ (∃ order,
       filled_orders r.2 !! r.1 = Some order
       ∧ pending_orders r.2 !! r.1 = None
       ∧ order_status order = "FILLED"
       ∧ order_symbol order = "BTC" ∧ order_side order = "SELL"
       ∧ order_quantity order = 0.01)
  ∧ cash_balance (portfolio r.2) = 10000
  ∧ positions (portfolio r.2) = ∅.
Proof.
  cbv zeta.
  destruct (paper_sell_without_position env0 "BTC" 0.01 100000 engine0
              eq_refl eq_refl) as (Hfilled & Hcash & Hpos).
  split; [vm_compute; reflexivity|].
  split; [apply Hfilled; vm_compute; discriminate|].
  split; [exact Hcash|exact Hpos].
Defined.

Lemma placeOrder_rejection_changes_nothing_witness :
  (Qle_bool 0.1 0 = true ∨ checkRiskLimits "BTC" 0.1 100000 engine0 = false)
  ∧ (placeOrder env0 "BTC" "BUY" 0.1 "MARKET" 100000 engine0).2 = engine0.
Proof.
  apply (placeOrder_rejection_changes_nothing env0 "BTC" "BUY" 0.1 "MARKET"
           100000 engine0).
  vm_compute. reflexivity.
Defined.


Lemma peak_equity_never_decreases_witness :
  ∃ e1,
    updatePositionPrices env0 btc_drop live_engine = Some e1
    ∧ peak_balance live_engine <= peak_balance e1.
Proof.
  exists (default live_engine
            (updatePositionPrices env0 btc_drop live_engine)).
  split; [vm_compute; reflexivity|].
  destruct (peak_equity_never_decreases env0) as (_ & _ & _ & Hupdate & _).
  apply (Hupdate btc_drop live_engine). vm_compute. reflexivity.
Defined.


(** * Further properties of the engine *)

(** ** Sizing and signals *)

Lemma Qmin_std_le_l (a b : Q) : Qmin_std a b <= a.
Proof.
  unfold Qmin_std. destruct (Qlt_bool b a) eqn:Hlt.
  - apply Qlt_le_weak, Qlt_bool_iff, Hlt.
  - apply Qle_refl.
Qed.

Lemma Qmin_std_le_r (a b : Q) : Qmin_std a b <= b.
Proof.
  unfold Qmin_std. destruct (Qlt_bool b a) eqn:Hlt.
  - apply Qle_refl.
  - apply Qlt_bool_false_iff, Hlt.
Qed.

Lemma position_size_le_reserve (signal : TradingSignal) (e : TradingEngine) :
  calculatePositionSize signal e <= cash_balance (portfolio e) * 0.95.
Proof.
  unfold calculatePositionSize.
  eapply Qle_trans; [apply Qmin_std_le_l|apply Qmin_std_le_r].
Qed.

Lemma position_size_le_limit (signal : TradingSignal) (e : TradingEngine) :
  calculatePositionSize signal e <= max_position_size e.
Proof. unfold calculatePositionSize. apply Qmin_std_le_r. Qed.

(** X1.  The size [calculatePositionSize] proposes never exceeds the
    suggested size scaled by the confidence, 95% of the cash at hand, or the
    position-size limit. *)
Theorem position_size_is_capped (signal : TradingSignal) (e : TradingEngine) :
  calculatePositionSize signal e
    <= suggested_position_size signal * confidence signal
  ∧ calculatePositionSize signal e <= cash_balance (portfolio e) * 0.95
  ∧ calculatePositionSize signal e <= max_position_size e.
Proof.
  unfold calculatePositionSize. split; [|split].
  - eapply Qle_trans; [apply Qmin_std_le_l|apply Qmin_std_le_l].
  - eapply Qle_trans; [apply Qmin_std_le_l|apply Qmin_std_le_r].
  - apply Qmin_std_le_r.
Qed.

Section Signals.

Variable env : Env.

(** X2.  A signal changes the engine only if its size is positive and it is
    a BUY for a symbol without an open position or a SELL for a symbol with
    one; HOLD, any other action, a BUY on top of a position and a SELL of
    nothing leave every field as it was. *)
Theorem signal_acts_only_on_buy_or_sell (signal : TradingSignal)
    (e : TradingEngine) :
  processTradingSignal env signal e ≠ e →
  0 < calculatePositionSize signal e
  ∧ ((action signal = "BUY"
      ∧ ∀ pos, positions (portfolio e) !! sig_symbol signal = Some pos →
               pos_quantity pos <= 0)
     ∨ (action signal = "SELL"
        ∧ ∃ pos, positions (portfolio e) !! sig_symbol signal = Some pos
                 ∧ 0 < pos_quantity pos)).
Proof.
  unfold processTradingSignal. intros Hchanged.
  destruct (Qle_bool (calculatePositionSize signal e) 0) eqn:Hsize; [done|].
  apply Qle_bool_false_iff in Hsize. split; [exact Hsize|].
  destruct (positions (portfolio e) !! sig_symbol signal) as [pos|] eqn:Hpos.
  - destruct (String.eqb (action signal) "BUY") eqn:Hbuy;
      destruct (String.eqb (action signal) "SELL") eqn:Hsell;
      destruct (Qlt_bool 0 (pos_quantity pos)) eqn:Hq;
      cbn [andb negb] in Hchanged; try done.
    + apply String.eqb_eq in Hbuy, Hsell. congruence.
    + left. apply String.eqb_eq in Hbuy. split; [done|].
      intros pos' [= <-]. by apply Qlt_bool_false_iff.
    + left. apply String.eqb_eq in Hbuy. split; [done|].
      intros pos' [= <-]. by apply Qlt_bool_false_iff.
    + right. apply String.eqb_eq in Hsell. split; [done|].
      exists pos. split; [done|]. by apply Qlt_bool_iff.
  - destruct (String.eqb (action signal) "BUY") eqn:Hbuy;
      destruct (String.eqb (action signal) "SELL") eqn:Hsell;
      cbn [andb negb] in Hchanged; try done.
    + left. apply String.eqb_eq in Hbuy. split; [done|]. by intros pos' [=].
    + left. apply String.eqb_eq in Hbuy. split; [done|]. by intros pos' [=].
Qed.

End Signals.

(** ** Fill prices *)

Lemma paper_buy_price_above (p q : Q) :
  0 < p → 0 <= q →
  p < simulateSpread PaperTradingSimulator_new
        (simulateSlippage PaperTradingSimulator_new p q "BUY").
Proof.
  intros Hp Hq. unfold simulateSpread, simulateSlippage. cbn.
  assert (H : (p + p * 0.001 * (1 + q / 100)) * (1 + 0.0005)
              == p * 1.0015005 + 0.0000100050 * (p * q)) by field.
  rewrite H. clear H.
  assert (0 <= p * q) by (apply Qmult_le_0_compat; lra).
  lra.
Qed.

Lemma paper_sell_price_below (p q : Q) (side : string) :
  side ≠ "BUY" → 0 < p → 0 <= q →
  simulateSpread PaperTradingSimulator_new
    (simulateSlippage PaperTradingSimulator_new p q side) < p.
Proof.
  intros Hside Hp Hq. unfold simulateSpread, simulateSlippage.
  apply String.eqb_neq in Hside. rewrite Hside. cbn.
  assert (H : (p - p * 0.001 * (1 + q / 100)) * (1 + 0.0005)
              == p * 0.9994995 - 0.0000100050 * (p * q)) by field.
  rewrite H. clear H.
  assert (0 <= p * q) by (apply Qmult_le_0_compat; lra).
  lra.
Qed.

Section FillPrices.

Variable env : Env.

(** X3.  [simulateFill] fills a MARKET order at a price that is worse for
    the trader than the market price it is given (positive price,
    non-negative quantity): above it for a BUY, below it for any other
    side, the spread markup included. *)
Theorem market_fill_is_unfavourable (order : Order) (market_price : Q)
    (e : TradingEngine) :
  order_type order = "MARKET" →
  0 < market_price → 0 <= order_quantity order →
  let filled := (simulateFill env order market_price e).1 in
  order_status filled = "FILLED"
  ∧ (order_side order = "BUY" → market_price < order_price filled)
  ∧ (order_side order ≠ "BUY" → order_price filled < market_price).
Proof.
  intros Htype Hp Hq. unfold simulateFill. rewrite Htype.
  cbn [String.eqb Ascii.eqb Bool.eqb]. unfold executeMarketOrder.
  cbn [fst filled_at order_status order_price].
  split; [done|]. split.
  - intros ->. by apply paper_buy_price_above.
  - intros Hside. by apply paper_sell_price_below.
Qed.

(** X4.  An accepted order that is not a MARKET order in paper mode is only
    recorded: it sits in the pending table with status PENDING, and the
    filled table, the portfolio and the peak are as before. *)
Theorem unfilled_order_stays_pending (symbol side : string) (quantity : Q)
    (type : string) (price : Q) (e : TradingEngine) :
  mode e = LIVE ∨ type ≠ "MARKET" →
  let r := placeOrder env symbol side quantity type price e in
  r.1 ≠ "" →
  pending_orders r.2 !! r.1
  = Some (mkOrder r.1 symbol side quantity price type "PENDING" (clock env))
  ∧ filled_orders r.2 = filled_orders e
  ∧ portfolio r.2 = portfolio e
  ∧ peak_balance r.2 = peak_balance e.
Proof.
  intros Hwait r Hid. subst r.
  destruct (Qle_bool quantity 0) eqn:Hq.
  { rewrite placeOrder_rejected in Hid by auto. done. }
  destruct (checkRiskLimits symbol quantity price e) eqn:Hrisk.
  2:{ rewrite placeOrder_rejected in Hid by auto. done. }
  rewrite (placeOrder_accepted _ _ _ _ _ _ _ Hq Hrisk). cbn [fst snd].
  assert (Hstay : match mode e with
                  | PAPER => String.eqb type "MARKET"
                  | LIVE => false
                  end = false).
  { destruct Hwait as [-> | Hne]; [done|].
    apply String.eqb_neq in Hne. rewrite Hne. by destruct (mode e). }
  destruct (mode e); [rewrite Hstay|];
    (split; [apply lookup_insert_eq|done]).
Qed.

(** X5.  With thresholds whose sum is positive (the constructor sets 2% and
    5%), the stop-loss and the take-profit cannot both act on the same
    position at the same price: one of them leaves the engine as it is. *)
Theorem stop_loss_excludes_take_profit (position : Position) (price : Q)
    (e : TradingEngine) :
  0 < stop_loss_percentage e + take_profit_percentage e →
  applyStopLoss env position price e = e
  ∨ applyTakeProfit env position price e = e.
Proof.
  intros Hsum. unfold applyStopLoss, applyTakeProfit.
  destruct (Qle_bool (stop_loss_percentage e) _) eqn:Hsl; [|by left].
  destruct (Qle_bool (take_profit_percentage e) _) eqn:Htp; [|by right].
  exfalso. apply Qle_bool_iff in Hsl, Htp.
  assert (Hzero : (entry_price position - price) / entry_price position
                  + (price - entry_price position) / entry_price position
                  == 0) by (unfold Qdiv; ring).
  lra.
Qed.

End FillPrices.

(** ** Positions that an operation does not address *)

Section OtherPositions.

Variable env : Env.

Lemma updatePortfolio_other_position (order : Order) (e : TradingEngine)
    (s : string) :
  s ≠ order_symbol order →
  positions (portfolio (updatePortfolio env order e)) !! s
  = positions (portfolio e) !! s.
Proof.
  intros Hne. unfold updatePortfolio, updatePortfolio_pnl.
  destruct (String.eqb (order_side order) "BUY").
  { destruct (positions (portfolio e) !! order_symbol order); cbn;
      by rewrite lookup_insert_ne. }
  destruct (String.eqb (order_side order) "SELL"); [|done].
  destruct (positions (portfolio e) !! order_symbol order); [|done].
  cbn. destruct (Qle_bool _ 0).
  - by rewrite lookup_delete_ne.
  - by rewrite lookup_insert_ne.
Qed.

Lemma simulateFill_other_position (order : Order) (p : Q) (e : TradingEngine)
    (s : string) :
  s ≠ order_symbol order →
  positions (portfolio (simulateFill env order p e).2) !! s
  = positions (portfolio e) !! s.
Proof.
  intros Hne. unfold simulateFill, executeMarketOrder, executeLimitOrder.
  split_branches; cbn [snd set_orders portfolio]; try done;
    by apply updatePortfolio_other_position.
Qed.

Lemma placeOrder_other_position (symbol side : string) (quantity : Q)
    (type : string) (price : Q) (e : TradingEngine) (s : string) :
  s ≠ symbol →
  positions (portfolio (placeOrder env symbol side quantity type price e).2)
    !! s
  = positions (portfolio e) !! s.
Proof.
  intros Hne. unfold placeOrder.
  destruct (Qle_bool quantity 0); [done|].
  destruct (negb _); [done|].
  unfold generateOrderId. cbn [snd order_id mode set_orders set_order_counter].
  destruct (mode e); [|done].
  destruct (String.eqb type "MARKET"); [|done].
  by rewrite simulateFill_other_position.
Qed.

Lemma updatePositionPrices_step_other (prices : gmap string Q)
    (e e' : TradingEngine) (k s : string) :
  positions_keyed e → s ≠ k →
  updatePositionPrices_step env prices e k = Some e' →
  positions (portfolio e') !! s = positions (portfolio e) !! s.
Proof.
  intros Hkeyed Hne. unfold updatePositionPrices_step.
  destruct (positions (portfolio e) !! k) as [p0|] eqn:Hlook;
    [|by intros [= <-]].
  destruct (prices !! k) as [price|]; [|by intros [= <-]].
  pose proof (Hkeyed k p0 Hlook) as Hsym. cbn beta in Hsym.
  cbv zeta. set (position := mkPosition _ _ _ _ _ _).
  set (e1 := set_portfolio _ e).
  assert (Hk1 : positions_keyed e1).
  { unfold positions_keyed, e1. cbn [portfolio positions set_portfolio].
    by apply map_Forall_insert_2. }
  assert (H1 : positions (portfolio e1) !! s = positions (portfolio e) !! s).
  { unfold e1. cbn [portfolio positions set_portfolio].
    by rewrite lookup_insert_ne. }
  assert (H2 : positions (portfolio (applyStopLoss env position
                                       (current_price position) e1)) !! s
               = positions (portfolio e1) !! s).
  { unfold applyStopLoss. destruct (Qle_bool _ _); [|done].
    apply placeOrder_other_position. unfold position.
    cbn [pos_symbol]. congruence. }
  pose proof (applyStopLoss_keyed env position (current_price position) e1
                Hk1) as Hk2.
  set (e2 := applyStopLoss env position (current_price position) e1) in *.
  destruct (positions (portfolio e2) !! k) as [position'|] eqn:Hlook2;
    [|done].
  pose proof (Hk2 k position' Hlook2) as Hsym2. cbn beta in Hsym2.
  destruct (positions (portfolio (applyTakeProfit _ _ _ _)) !! k); [|done].
  intros [= <-]. rewrite <- H1, <- H2.
  unfold applyTakeProfit. destruct (Qle_bool _ _); [|done].
  apply placeOrder_other_position. congruence.
Qed.

Lemma updatePositionPrices_step_unquoted (prices : gmap string Q)
    (e : TradingEngine) (k : string) :
  prices !! k = None → updatePositionPrices_step env prices e k = Some e.
Proof.
  intros Hnone. unfold updatePositionPrices_step. rewrite Hnone.
  by destruct (positions (portfolio e) !! k).
Qed.

Lemma updatePositionPrices_loop_unquoted (prices : gmap string Q)
    (symbols : list string) (e e' : TradingEngine) (s : string) :
  positions_keyed e →
  prices !! s = None →
  updatePositionPrices_loop env prices symbols e = Some e' →
  positions (portfolio e') !! s = positions (portfolio e) !! s.
Proof.
  intros Hkeyed Hnone.
  revert e Hkeyed. induction symbols as [|k symbols IH]; intros e Hkeyed;
    cbn [updatePositionPrices_loop]; [by intros [= <-]|].
  destruct (updatePositionPrices_step env prices e k) as [e1|] eqn:Hstep;
    [|done].
  intros Hloop.
  rewrite (IH e1) by (done || by eapply updatePositionPrices_step_keyed).
  destruct (decide (s = k)) as [->|Hne].
  - rewrite updatePositionPrices_step_unquoted in Hstep by done.
    by injection Hstep as <-.
  - by eapply updatePositionPrices_step_other.
Qed.

(** X6.  A call of [updatePositionPrices] that has a result leaves a
    position alone when the price map has no entry for its symbol: its
    price, its P&L and every other field are as before, whatever orders the
    call places for the other positions. *)
Theorem unquoted_position_untouched (prices : gmap string Q)
    (e e' : TradingEngine) (s : string) :
  positions_keyed e →
  prices !! s = None →
  updatePositionPrices env prices e = Some e' →
  positions (portfolio e') !! s = positions (portfolio e) !! s.
Proof.
  intros Hkeyed Hnone. unfold updatePositionPrices.
  destruct (updatePositionPrices_loop _ _ _ _) as [e1|] eqn:Hloop; [|done].
  intros [= <-]. cbn [portfolio set_portfolio positions].
  by eapply updatePositionPrices_loop_unquoted.
Qed.


(** X7.  Every operation of the engine keeps the positions map filed by
    symbol: each entry's [symbol] field is the key it is stored under
    ([updatePositionPrices]: whenever the call has a result). *)
Theorem positions_stay_keyed (e : TradingEngine) :
  positions_keyed e →
  (∀ open_positions, positions_keyed (initialize open_positions e))
  ∧ (∀ order, positions_keyed (updatePortfolio env order e))
  ∧ (∀ symbol side quantity type price,
       positions_keyed (placeOrder env symbol side quantity type price e).2)
  ∧ (∀ signal, positions_keyed (processTradingSignal env signal e))
  ∧ (∀ prices e',
       updatePositionPrices env prices e = Some e' → positions_keyed e').
Proof.
  intros Hkeyed. split; [|split; [|split; [|split]]]; intros.
  - by apply initialize_keyed.
  - by apply updatePortfolio_keyed.
  - by apply placeOrder_keyed.
  - by apply processTradingSignal_keyed.
  - by eapply updatePositionPrices_keyed.
Qed.


End OtherPositions.

(** ** Equity *)

Lemma fold_left_equity (l : list (string * Position)) (cash : Q) :
  fold_left (λ equity sp, equity + pos_quantity sp.2 * current_price sp.2)
            l cash
  == cash + positions_value l.
Proof.
  unfold positions_value.
  revert cash. induction l as [|sp l IH]; intros cash; cbn [fold_left foldr].
  - ring.
  - rewrite IH. ring.
Qed.

Lemma positions_value_permutation (l l' : list (string * Position)) :
  l ≡ₚ l' → positions_value l == positions_value l'.
Proof.
  unfold positions_value.
  induction 1 as [|sp l l' _ IH|a b l|l1 l2 l3 _ IH1 _ IH2]; cbn [foldr].
  - reflexivity.
  - rewrite IH. reflexivity.
  - ring.
  - rewrite IH1. exact IH2.
Qed.

(** Equity is cash plus the market value of the positions held. *)
Lemma getEquity_value (p : Portfolio) :
  getEquity p == cash_balance p + positions_value (map_to_list (positions p)).
Proof.
  unfold getEquity. rewrite fold_left_equity.
  rewrite (positions_value_permutation _ _
             (sorted_entries_permutation (positions p))).
  reflexivity.
Qed.

Lemma positions_value_insert_new (m : gmap string Position) (k : string)
    (pos : Position) :
  m !! k = None →
  positions_value (map_to_list (<[k := pos]> m))
  == pos_quantity pos * current_price pos + positions_value (map_to_list m).
Proof.
  intros Hnone.
  rewrite (positions_value_permutation _ _ (map_to_list_insert m k pos Hnone)).
  reflexivity.
Qed.

Lemma positions_value_delete (m : gmap string Position) (k : string)
    (pos : Position) :
  m !! k = Some pos →
  positions_value (map_to_list m)
  == pos_quantity pos * current_price pos
     + positions_value (map_to_list (delete k m)).
Proof.
  intros Hsome.
  rewrite <- (positions_value_permutation _ _ (map_to_list_delete m k pos Hsome)).
  reflexivity.
Qed.

Section Equity.

Variable env : Env.

Lemma updatePortfolio_buy_new_equity (order : Order) (e : TradingEngine) :
  order_side order = "BUY" →
  positions (portfolio e) !! order_symbol order = None →
  getEquity (portfolio (updatePortfolio env order e))
  == getEquity (portfolio e).
Proof.
  intros Hside Hnone. rewrite !getEquity_value.
  unfold updatePortfolio, updatePortfolio_pnl. rewrite Hside, Hnone.
  cbn [String.eqb Ascii.eqb Bool.eqb fst portfolio set_portfolio cash_balance
       positions].
  rewrite positions_value_insert_new by done. cbn. ring.
Qed.

(** X8.  Buying a symbol that is not held never changes equity at the
    moment of the order, in any mode and for any order type: what a paper
    fill takes out of cash, slippage and spread included, it books as the
    value of the new position. *)
Theorem buy_of_new_symbol_keeps_equity (symbol : string) (quantity : Q)
    (type : string) (price : Q) (e : TradingEngine) :
  positions (portfolio e) !! symbol = None →
  getEquity (portfolio (placeOrder env symbol "BUY" quantity type price e).2)
  == getEquity (portfolio e).
Proof.
  intros Hnone. unfold placeOrder.
  destruct (Qle_bool quantity 0); [reflexivity|].
  destruct (negb _); [reflexivity|].
  unfold generateOrderId. cbn [snd order_id mode set_orders set_order_counter].
  destruct (mode e); [|reflexivity].
  destruct (String.eqb type "MARKET") eqn:Htype; [|reflexivity].
  unfold simulateFill. cbn [order_type]. rewrite Htype.
  unfold executeMarketOrder. cbn [snd set_orders portfolio].
  by rewrite updatePortfolio_buy_new_equity.
Qed.

(** X9.  A SELL fill for the whole quantity of a position changes equity by
    the quantity times the difference between the fill price and the price
    the position was last marked at. *)
Theorem closing_sale_equity (order : Order) (pos : Position)
    (e : TradingEngine) :
  order_side order = "SELL" →
  positions (portfolio e) !! order_symbol order = Some pos →
  order_quantity order == pos_quantity pos →
  getEquity (portfolio (updatePortfolio env order e))
  == getEquity (portfolio e)
     + order_quantity order * (order_price order - current_price pos).
Proof.
  intros Hside Hsome Hall. rewrite !getEquity_value.
  rewrite (positions_value_delete _ _ _ Hsome).
  unfold updatePortfolio, updatePortfolio_pnl. rewrite Hside, Hsome.
  cbn [String.eqb Ascii.eqb Bool.eqb fst portfolio set_portfolio cash_balance
       positions set_peak_balance pos_quantity].
  rewrite (Qle_bool_diag_sub _ _ Hall). cbn [positions cash_balance].
  rewrite <- Hall. ring.
Qed.

End Equity.

(** ** Signals and cash *)

Section SignalCash.

Variable env : Env.

(** Cash after [placeOrder] for a BUY MARKET order: untouched, or less the
    quantity at the simulated fill price. *)
Lemma placeOrder_buy_market_cash (symbol : string) (quantity price : Q)
    (e : TradingEngine) :
  let fill_price :=
    simulateSpread PaperTradingSimulator_new
      (simulateSlippage PaperTradingSimulator_new
         (if Qlt_bool 0 price then price else 100000) quantity "BUY") in
  let r := placeOrder env symbol "BUY" quantity "MARKET" price e in
  cash_balance (portfolio r.2) = cash_balance (portfolio e)
  ∨ cash_balance (portfolio r.2)
    = cash_balance (portfolio e) - quantity * fill_price.
Proof.
  cbv zeta. unfold placeOrder.
  destruct (Qle_bool quantity 0); [by left|].
  destruct (negb _); [by left|].
  unfold generateOrderId. cbn [snd order_id mode set_orders set_order_counter].
  destruct (mode e); [|by left].
  cbn [String.eqb Ascii.eqb Bool.eqb]. right.
  unfold simulateFill. cbn [order_type String.eqb Ascii.eqb Bool.eqb].
  unfold executeMarketOrder. cbn [snd set_orders portfolio].
  unfold updatePortfolio, updatePortfolio_pnl.
  cbn [order_side filled_at String.eqb Ascii.eqb Bool.eqb].
  match goal with |- context [positions ?pf !! ?k] =>
    destruct (positions pf !! k) end; reflexivity.
Qed.

Lemma buy_signal_cost (size cash : Q) :
  0 < size → size <= cash * 0.95 → size <= 100000000 →
  0 <= cash - size / 100000
              * simulateSpread PaperTradingSimulator_new
                  (simulateSlippage PaperTradingSimulator_new 100000
                     (size / 100000) "BUY").
Proof.
  intros Hpos Hcash Hmax. unfold simulateSpread, simulateSlippage. cbn.
  assert (Hcost : size / 100000
                  * ((100000 + 100000 * 0.001 * (1 + size / 100000 / 100))
                     * (1 + 0.0005))
                  == size * 1.0015005 + 0.00000000010005 * (size * size))
    by field.
  rewrite Hcost. clear Hcost.
  assert (Hsq : size * size <= size * 100000000).
  { apply Qmult_le_l; assumption. }
  lra.
Qed.

(** X10.  A signal other than SELL never overdraws the account: with a
    position-size limit of at most 100 million and cash not below zero, the
    cash balance is not below zero after [processTradingSignal] either; the
    5% reserve kept by the sizing covers the slippage and the spread of the
    paper fill. *)
Theorem buy_signal_never_overdraws (signal : TradingSignal)
    (e : TradingEngine) :
  action signal ≠ "SELL" →
  max_position_size e <= 100000000 →
  0 <= cash_balance (portfolio e) →
  0 <= cash_balance (portfolio (processTradingSignal env signal e)).
Proof.
  intros Haction Hmax Hcash. unfold processTradingSignal.
  destruct (Qle_bool (calculatePositionSize signal e) 0) eqn:Hsize; [done|].
  apply Qle_bool_false_iff in Hsize.
  apply String.eqb_neq in Haction. rewrite Haction. cbn [andb].
  destruct (String.eqb (action signal) "BUY" && _); [|done].
  unfold placeOrder_default.
  destruct (placeOrder_buy_market_cash (sig_symbol signal)
              (calculatePositionSize signal e / 100000) 0 e) as [-> | ->];
    [done|].
  cbn [Qlt_bool Qnum Qden Z.ltb Z.mul Z.compare].
  apply buy_signal_cost; [done|apply position_size_le_reserve|].
  eapply Qle_trans; [apply position_size_le_limit|exact Hmax].
Qed.

End SignalCash.

Section SellSignal.

Variable env : Env.

(** X11.  In paper mode a SELL signal for an open position, once its order
    passes the risk check, closes the position at the fill price simulated
    from the fallback quote of 100000, whatever price the position was last
    marked at: the order carries no price of its own. *)
Theorem sell_signal_fills_at_fallback_quote (signal : TradingSignal)
    (pos : Position) (e : TradingEngine) :
  mode e = PAPER →
  action signal = "SELL" →
  0 < calculatePositionSize signal e →
  positions (portfolio e) !! sig_symbol signal = Some pos →
  0 < pos_quantity pos →
  checkRiskLimits (sig_symbol signal) (pos_quantity pos) 0 e = true →
  let e' := processTradingSignal env signal e in
  positions (portfolio e') !! sig_symbol signal = None
  ∧ cash_balance (portfolio e')
    = cash_balance (portfolio e)
      + pos_quantity pos
        * simulateSpread PaperTradingSimulator_new
            (simulateSlippage PaperTradingSimulator_new 100000
               (pos_quantity pos) "SELL").
Proof.
  intros Hmode Haction Hsize Hpos Hq Hrisk. cbv zeta.
  unfold processTradingSignal.
  apply Qle_bool_false_iff in Hsize. rewrite Hsize, Hpos, Haction.
  apply Qlt_bool_iff in Hq as Hqb. rewrite Hqb.
  cbn [String.eqb Ascii.eqb Bool.eqb andb negb]. unfold placeOrder_default.
  apply Qle_bool_false_iff in Hq.
  rewrite (placeOrder_paper_market env _ "SELL" _ 0 e Hmode Hq Hrisk).
  cbn [snd]. unfold executeMarketOrder. cbn [snd set_orders portfolio].
  match goal with |- context [updatePortfolio env ?o ?e2] =>
    pose proof (updatePortfolio_sell_all env o pos e2 eq_refl Hpos
                  ltac:(reflexivity)) as Hgone;
    set (order := o) in *; set (e2' := e2) in *
  end.
  split.
  - rewrite Hgone. apply lookup_delete_eq.
  - unfold updatePortfolio, updatePortfolio_pnl.
    change (order_side order) with "SELL".
    change (positions (portfolio e2') !! order_symbol order)
      with (positions (portfolio e) !! sig_symbol signal).
    rewrite Hpos. reflexivity.
Qed.

End SellSignal.

(** ** Limit orders, identifiers, listings *)

Section FillsAndIds.

Variable env : Env.

(** X12.  [simulateFill] acts on an order only if it is a MARKET order, or a
    LIMIT order whose limit is met by the market price (BUY: limit at or
    above it, SELL: limit at or below it) and whose draw falls below the
    fill probability of 0.95; otherwise order and engine stay as they
    were. *)
Theorem fill_needs_market_or_met_limit (order : Order) (market_price : Q)
    (e : TradingEngine) :
  simulateFill env order market_price e ≠ (order, e) →
  order_type order = "MARKET"
  ∨ (order_type order = "LIMIT"
     ∧ uniform_draw env < 0.95
     ∧ ((order_side order = "BUY" ∧ market_price <= order_price order)
        ∨ (order_side order = "SELL" ∧ order_price order <= market_price))).
Proof.
  unfold simulateFill, simulateOrderFill. intros Hacted.
  destruct (String.eqb (order_type order) "MARKET") eqn:Hmarket.
  { left. by apply String.eqb_eq. }
  destruct (String.eqb (order_type order) "LIMIT") eqn:Hlimit; [|done].
  right. apply String.eqb_eq in Hlimit. split; [done|].
  destruct (String.eqb (order_side order) "BUY") eqn:Hbuy;
    destruct (Qle_bool market_price (order_price order)) eqn:Hle1;
    destruct (String.eqb (order_side order) "SELL") eqn:Hsell;
    destruct (Qle_bool (order_price order) market_price) eqn:Hle2;
    cbn [andb] in Hacted;
    try (destruct (Qlt_bool (uniform_draw env)
                     (fill_probability PaperTradingSimulator_new)) eqn:Hdraw;
         [apply Qlt_bool_iff in Hdraw|done]);
    try done;
    (split; [exact Hdraw|]);
    try (left; split; [by apply String.eqb_eq|by apply Qle_bool_iff]);
    right; (split; [by apply String.eqb_eq|by apply Qle_bool_iff]).
Qed.

Lemma wrap_int32_succ_inj (c1 c2 : Z) :
  (- 2 ^ 31 <= c1 < 2 ^ 31)%Z → (- 2 ^ 31 <= c2 < 2 ^ 31)%Z →
  wrap_int32 (c1 + 1) = wrap_int32 (c2 + 1) → c1 = c2.
Proof.
  unfold wrap_int32.
  change (2 ^ 31)%Z with 2147483648%Z. change (2 ^ 32)%Z with 4294967296%Z.
  intros H1 H2 Heq. Z.div_mod_to_equations. lia.
Qed.

(** X13.  Order identifiers drawn at the same clock reading from different
    values of the 32-bit order counter are different, the wrap-around of the
    counter included. *)
Theorem order_ids_differ (e1 e2 : TradingEngine) :
  (- 2 ^ 31 <= order_counter e1 < 2 ^ 31)%Z →
  (- 2 ^ 31 <= order_counter e2 < 2 ^ 31)%Z →
  order_counter e1 ≠ order_counter e2 →
  (generateOrderId env e1).1 ≠ (generateOrderId env e2).1.
Proof.
  intros H1 H2 Hne. unfold generateOrderId. cbn [fst]. intros Heq.
  apply Hne, wrap_int32_succ_inj; [done|done|].
  apply (inj pretty).
  by repeat apply (inj (String.app _)) in Heq.
Qed.

End FillsAndIds.

(** X14.  [getAllPositions] returns every position held exactly once; when
    the map is filed by symbol the listing is in increasing order of
    symbol, without repetition, and has one entry per symbol held. *)
Theorem getAllPositions_lists_holdings (e : TradingEngine) :
  positions_keyed e →
  (∀ pos, pos ∈ getAllPositions e
          ↔ positions (portfolio e) !! pos_symbol pos = Some pos)
  ∧ Sorted String.le (pos_symbol <$> getAllPositions e)
  ∧ NoDup (pos_symbol <$> getAllPositions e)
  ∧ length (getAllPositions e) = size (positions (portfolio e)).
Proof.
  intros Hkeyed. unfold getAllPositions.
  assert (Hin : ∀ k pos, (k, pos) ∈ sorted_entries (positions (portfolio e))
                         ↔ positions (portfolio e) !! k = Some pos).
  { intros k pos. rewrite sorted_entries_permutation.
    apply elem_of_map_to_list. }
  assert (Hsyms : pos_symbol <$> (sorted_entries (positions (portfolio e))).*2
                  = sorted_keys (positions (portfolio e))).
  { unfold sorted_keys. rewrite <- list_fmap_compose.
    apply Forall_fmap_ext_1, Forall_forall. intros [k pos] Hkp.
    apply Hin in Hkp. exact (Hkeyed k pos Hkp). }
  split; [|split; [|split]].
  - intros pos. rewrite list_elem_of_fmap. split.
    + intros [[k pos'] [-> Hkp]]. cbn. apply Hin in Hkp.
      pose proof (Hkeyed k pos' Hkp) as Hsym. cbn in Hsym. by rewrite Hsym.
    + intros Hpos. exists (pos_symbol pos, pos). split; [done|]. by apply Hin.
  - rewrite Hsyms. unfold sorted_keys.
    eapply Sorted_fmap; [|apply sorted_entries_sorted]. done.
  - rewrite Hsyms. apply sorted_keys_NoDup.
  - rewrite length_fmap, sorted_entries_permutation. apply length_map_to_list.
Qed.

(** * Further properties of the channel *)

Section Batches.

Local Open Scope nat_scope.

Lemma frames_cons (m : IPC.bytes) (ms : list IPC.bytes) :
  frames (m :: ms) = m ++ IPC.newline :: frames ms.
Proof. unfold frames. cbn. by rewrite <- app_assoc. Qed.

Lemma frames_length (messages : list IPC.bytes) :
  length (frames messages) = frame_bytes messages.
Proof.
  unfold frame_bytes. induction messages as [|m ms IH]; [done|].
  rewrite frames_cons, length_app. cbn [length fmap list_fmap sum_list].
  change (list_fmap _ _ ?f ms) with (f <$> ms). rewrite <- IH. cbn. lia.
Qed.

Lemma send_all_fifo (messages : list IPC.bytes) (ipc : IPC.IPCManager)
    (fifo : IPC.bytes) :
  IPC.connected ipc = true →
  (send_all messages ipc fifo).2 = fifo ++ frames messages.
Proof.
  unfold send_all. revert ipc fifo.
  induction messages as [|m ms IH]; intros ipc fifo Hconn; cbn [fold_left].
  - cbn. by rewrite app_nil_r.
  - cbn [fst snd].
    destruct (sendMessage_whole m ipc fifo Hconn) as (ipc' & -> & Hconn').
    rewrite IH by done. rewrite frames_cons.
    rewrite <- !app_assoc. done.
Qed.

Lemma split_loop_frames (messages : list IPC.bytes) (fuel : nat)
    (queue : list IPC.bytes) :
  Forall (λ message, IPC.newline ∉ message) messages →
  length (frames messages) ≤ fuel →
  IPC.split_loop fuel (frames messages) queue
  = queue ++ filter (λ message, message ≠ []) messages.
Proof.
  revert fuel queue.
  induction messages as [|m ms IH]; intros fuel queue Hnl Hfuel.
  - cbn. rewrite app_nil_r. by destruct fuel.
  - apply Forall_cons in Hnl as [Hm Hms].
    rewrite frames_cons in *. rewrite length_app in Hfuel.
    cbn [length] in Hfuel.
    destruct fuel as [|fuel]; [lia|]. cbn [IPC.split_loop].
    rewrite (find_first _ _ _ Hm), take_app_length.
    replace (drop (S (length m)) (m ++ IPC.newline :: frames ms))
      with (frames ms).
    2:{ change (m ++ IPC.newline :: frames ms)
          with (m ++ [IPC.newline] ++ frames ms).
        rewrite app_assoc. symmetry. apply drop_app_length'.
        rewrite length_app. cbn. lia. }
    rewrite IH by (done || lia).
    rewrite filter_cons. destruct m as [|b m].
    + by rewrite decide_False by (by intros ?).
    + rewrite decide_True by done. by rewrite <- app_assoc.
Qed.

Lemma receive_n_queue (queue : list IPC.bytes) (ipc : IPC.IPCManager)
    (extra : nat) :
  IPC.message_queue ipc = queue →
  (receive_n (length queue + extra) ipc).1 = queue ++ replicate extra [].
Proof.
  revert ipc. induction queue as [|m queue IH]; intros ipc Hq.
  - cbn [length Nat.add app]. revert ipc Hq.
    induction extra as [|extra IHe]; intros ipc Hq; [done|].
    cbn [receive_n]. unfold IPC.receiveMessage. rewrite Hq.
    specialize (IHe ipc Hq). destruct (receive_n extra ipc). cbn in *.
    by rewrite IHe.
  - cbn [length Nat.add receive_n]. unfold IPC.receiveMessage. rewrite Hq.
    match goal with |- context [receive_n _ ?ipc'] =>
      specialize (IH ipc' eq_refl); destruct (receive_n _ ipc') end.
    cbn in *. by rewrite IH.
Qed.

(** What the reader queues when all that is in the FIFO fits one [read]. *)
Lemma readerLoop_one_read (ipc : IPC.IPCManager) (fifo : IPC.bytes) :
  IPC.running ipc = true →
  length fifo < IPC.buffer_size →
  IPC.NUL ∉ fifo →
  IPC.message_queue (IPC.readerLoop (length fifo) ipc fifo).1
  = IPC.split_loop (length fifo) fifo (IPC.message_queue ipc).
Proof.
  intros Hrun Hfit Hnul. unfold IPC.buffer_size in Hfit.
  destruct fifo as [|b fifo]; [done|].
  cbn [length IPC.readerLoop]. rewrite Hrun.
  unfold IPC.readerLoop_body, IPC.os_read, IPC.buffer_size.
  rewrite (take_ge (b :: fifo)), (drop_ge (b :: fifo)) by (cbn in *; lia).
  rewrite (c_str_no_NUL _ Hnul).
  assert (Hrd : ∀ fuel ipc', IPC.readerLoop fuel ipc' [] = (ipc', [])).
  { intros [|fuel'] ipc'; cbn; [reflexivity|]. by destruct (IPC.running ipc'). }
  rewrite Hrd. reflexivity.
Qed.

(** X15.  Messages sent one after the other whose frames fit one [read]
    together (fewer than 4096 bytes, delimiters included) and that hold no
    newline and no NUL are received in the order sent, each as it was sent;
    empty messages are left out, and further calls of [receiveMessage] give
    the empty result of a timeout. *)
Theorem batch_arrives_in_order (messages : list IPC.bytes) (extra : nat) :
  Forall (λ message, (IPC.newline ∉ message) ∧ (IPC.NUL ∉ message))
         messages →
  frame_bytes messages < IPC.buffer_size →
  let sent := filter (λ message, message ≠ []) messages in
  batch_trip messages (length sent + extra) = sent ++ replicate extra [].
Proof.
  intros Hclean Hfit sent. unfold batch_trip.
  pose proof (send_all_fifo messages IPC.initialized [] eq_refl) as Hfifo.
  destruct (send_all messages IPC.initialized []) as [sender fifo].
  cbn [snd app] in Hfifo. subst fifo.
  assert (Hnl : Forall (λ message, IPC.newline ∉ message) messages).
  { eapply Forall_impl; [exact Hclean|]. by intros m [? _]. }
  assert (Hnul : IPC.NUL ∉ frames messages).
  { clear Hfit sent Hnl. induction Hclean as [|m ms [_ Hm] _ IH].
    - by intros ?%elem_of_nil.
    - rewrite frames_cons.
      intros [Hin | [Hin | Hin]%elem_of_cons]%elem_of_app; [done| |done].
      discriminate Hin. }
  rewrite <- frames_length in Hfit.
  pose proof (readerLoop_one_read (IPC.start IPC.initialized)
                (frames messages) eq_refl Hfit Hnul) as Hqueue.
  destruct (IPC.readerLoop _ _ _) as [peer rest]. cbn [fst] in Hqueue.
  apply receive_n_queue. rewrite Hqueue.
  by rewrite split_loop_frames.
Qed.

End Batches.

(** ** A frame read in several pieces *)

Section LastRead.

Local Open Scope nat_scope.

Lemma readerLoop_body_queue (ipc : IPC.IPCManager) (chunk : IPC.bytes) :
  length chunk < IPC.buffer_size → IPC.NUL ∉ chunk →
  IPC.message_queue (IPC.readerLoop_body ipc chunk).1
  = IPC.split_loop (length chunk) chunk (IPC.message_queue ipc).
Proof.
  intros Hfit Hnul. unfold IPC.readerLoop_body, IPC.os_read.
  unfold IPC.buffer_size in *.
  rewrite take_ge by lia. cbn [fst IPC.message_queue].
  by rewrite c_str_no_NUL.
Qed.

(** X16.  Of a frame that reaches the reader in several reads, only the part
    that the last read brings together with the delimiter is delivered:
    what the earlier reads brought holds no newline and is dropped.  A frame
    read in one piece is delivered whole, and nothing is delivered when the
    last read brings the delimiter alone. *)
Theorem reader_keeps_last_read (heads : list IPC.bytes) (tail : IPC.bytes)
    (ipc : IPC.IPCManager) :
  Forall (λ chunk, 0 < length chunk < IPC.buffer_size)
         (heads ++ [tail ++ [IPC.newline]]) →
  IPC.newline ∉ mjoin heads ++ tail →
  IPC.NUL ∉ mjoin heads ++ tail →
  IPC.message_queue (read_chunks (heads ++ [tail ++ [IPC.newline]]) ipc)
  = IPC.message_queue ipc ++ match tail with [] => [] | _ => [tail] end.
Proof.
  unfold read_chunks. revert ipc.
  induction heads as [|chunk heads IH]; intros ipc Hfit Hnl Hnul.
  - rewrite app_nil_l in *. change (mjoin [] ++ tail) with tail in *.
    cbn [fold_left]. rewrite Forall_singleton in Hfit.
    rewrite readerLoop_body_queue; [|lia|].
    2:{ intros [Hin|Hin]%elem_of_app; [done|].
        apply list_elem_of_singleton in Hin. discriminate Hin. }
    rewrite length_app. cbn [length]. rewrite Nat.add_1_r.
    cbn [IPC.split_loop]. rewrite (find_first _ _ [] Hnl).
    rewrite take_app_length.
    replace (drop (S (length tail)) (tail ++ [IPC.newline]))
      with (@nil ascii).
    2:{ symmetry. apply drop_ge. rewrite length_app. cbn. lia. }
    assert (Hsp : ∀ fuel q, IPC.split_loop fuel [] q = q)
      by (by intros [|fuel] q).
    rewrite Hsp. by destruct tail; rewrite ?app_nil_r.
  - rewrite <- app_comm_cons in *. cbn [fold_left].
    apply Forall_cons in Hfit as [Hchunk Hfit].
    change (mjoin (chunk :: heads)) with (chunk ++ mjoin heads) in *.
    rewrite <- app_assoc in Hnl, Hnul.
    rewrite IH; [|done|..].
    + rewrite readerLoop_body_queue; [|lia|].
      * rewrite split_loop_no_newline; [done|].
        intros Hin. apply Hnl, elem_of_app. by left.
      * intros Hin. apply Hnul, elem_of_app. by left.
    + intros Hin. apply Hnl, elem_of_app. by right.
    + intros Hin. apply Hnul, elem_of_app. by right.
Qed.

End LastRead.


(** * Properties of the start-up code *)

(** ** Text *)

Lemma append_nil_l (s : string) : EmptyString +:+ s = s.
Proof. reflexivity. Qed.

Lemma append_cons (x : ascii) (k s : string) :
  String x k +:+ s = String x (k +:+ s).
Proof. reflexivity. Qed.

Lemma append_assoc (a b c : string) : (a +:+ b) +:+ c = a +:+ (b +:+ c).
Proof.
  induction a as [|x a IH]; [done|]. by rewrite !append_cons, IH.
Qed.

Lemma append_length (a b : string) :
  String.length (a +:+ b) = (String.length a + String.length b)%nat.
Proof.
  induction a as [|x a IH]; [done|]. rewrite append_cons. cbn. by rewrite IH.
Qed.

Lemma string_find_app (c : ascii) (k v : string) :
  string_find c k = None →
  string_find c (k +:+ String c v) = Some (String.length k).
Proof.
  induction k as [|x k IH]; intros Hnone.
  - rewrite append_nil_l. cbn [string_find String.length].
    by rewrite Ascii.eqb_refl.
  - rewrite append_cons. cbn [string_find String.length] in *.
    destruct (Ascii.eqb x c); [done|].
    destruct (string_find c k); [done|]. by rewrite IH.
Qed.

Lemma string_take_app (k r : string) :
  string_take (String.length k) (k +:+ r) = k.
Proof.
  induction k as [|x k IH]; [by destruct r|].
  rewrite append_cons. cbn [String.length string_take]. by rewrite IH.
Qed.

Lemma string_drop_app (k r : string) :
  string_drop (String.length k) (k +:+ r) = r.
Proof.
  induction k as [|x k IH]; [by destruct r|].
  rewrite append_cons. by cbn [String.length string_drop].
Qed.

Lemma string_find_split (c : ascii) (s : string) (pos : nat) :
  string_find c s = Some pos →
  s = string_take pos s +:+ String c (string_drop (S pos) s)
  ∧ string_find c (string_take pos s) = None.
Proof.
  revert pos. induction s as [|x s IH]; intros pos;
    cbn [string_find]; [done|].
  destruct (Ascii.eqb x c) eqn:Heq.
  - intros [= <-]. apply Ascii.eqb_eq in Heq. subst x.
    cbn [string_take string_drop]. rewrite append_nil_l.
    split; [|done]. by destruct s.
  - destruct (string_find c s) as [n|] eqn:Hfind; [|done].
    intros [= <-]. destruct (IH n eq_refl) as [Hs Hnone].
    cbn [string_take string_drop string_find]. rewrite append_cons, Heq, Hnone.
    split; [|done]. f_equal. destruct s; [done|]. exact Hs.
Qed.

(** ** The environment file *)

Lemma assigns_inj (line k v k' v' : string) :
  assigns line k v → assigns line k' v' → k = k' ∧ v = v'.
Proof.
  intros (-> & Hk & _) (Heq & Hk' & _).
  pose proof (string_find_app "=" k v Hk) as H1.
  pose proof (string_find_app "=" k' v' Hk') as H2.
  rewrite Heq in H1. rewrite H1 in H2. injection H2 as Hlen.
  assert (k = k') as <-.
  { rewrite <- (string_take_app k (String "=" v)), Heq, Hlen.
    apply string_take_app. }
  split; [done|]. by apply (inj (String.app k)) in Heq as [= ->].
Qed.

Lemma loadEnv_line_assigns (env : gmap string string) (line k v : string) :
  assigns line k v → loadEnv_line env line = <[k := v]> env.
Proof.
  intros (-> & Hk & Hhash). unfold loadEnv_line.
  destruct (k +:+ String "=" v) as [|first rest] eqn:Hline.
  { by destruct k. }
  assert (Hfirst : Ascii.eqb first "#" = false).
  { apply Ascii.eqb_neq. intros ->. destruct k as [|x k].
    - rewrite append_nil_l in Hline. discriminate Hline.
    - rewrite append_cons in Hline. injection Hline as -> _.
      by apply (Hhash k). }
  rewrite Hfirst, <- Hline, (string_find_app _ _ _ Hk).
  rewrite string_take_app.
  replace (S (String.length k))
    with (String.length (k +:+ String "=" ""))
    by (rewrite append_length; cbn; lia).
  replace (k +:+ String "=" v) with ((k +:+ String "=" "") +:+ v)
    by (by rewrite append_assoc).
  by rewrite string_drop_app.
Qed.

Lemma loadEnv_line_cases (env : gmap string string) (line : string) :
  loadEnv_line env line = env ∧ (∀ k v, ¬ assigns line k v)
  ∨ ∃ k v, assigns line k v ∧ loadEnv_line env line = <[k := v]> env.
Proof.
  destruct line as [|first rest] eqn:Hline.
  { left. split; [done|]. intros k v (Heq & _). by destruct k. }
  destruct (Ascii.eqb first "#") eqn:Hfirst.
  { left. cbn. rewrite Hfirst. split; [done|].
    apply Ascii.eqb_eq in Hfirst. subst first.
    intros k v (Heq & Hk & Hhash). destruct k as [|x k].
    - rewrite append_nil_l in Heq. discriminate Heq.
    - rewrite append_cons in Heq. injection Heq as <- _.
      by apply (Hhash k). }
  rewrite <- Hline.
  destruct (string_find "=" line) as [pos|] eqn:Hfind.
  - right. destruct (string_find_split _ _ _ Hfind) as [Hsplit Hnone].
    exists (string_take pos line), (string_drop (S pos) line).
    assert (Ha : assigns line (string_take pos line)
                   (string_drop (S pos) line)).
    { split; [exact Hsplit|]. split; [exact Hnone|].
      intros rest' Hk. rewrite Hk in Hsplit. rewrite Hline in Hsplit.
      rewrite append_cons in Hsplit. injection Hsplit as -> _.
      by rewrite Ascii.eqb_refl in Hfirst. }
    split; [exact Ha|]. by apply loadEnv_line_assigns.
  - left. split.
    + rewrite Hline in *. cbn in *. by rewrite Hfirst, Hfind.
    + intros k v (Heq & Hk & _).
      rewrite Heq, (string_find_app _ _ _ Hk) in Hfind. done.
Qed.

(** The entry for [key] after the lines [lines]. *)
Lemma loadEnv_lines_lookup (lines : list string) (key value : string) :
  fold_left loadEnv_line lines ∅ !! key = Some value
  ↔ ∃ before line after,
      lines = before ++ line :: after
      ∧ assigns line key value
      ∧ ∀ later w, later ∈ after → ¬ assigns later key w.
Proof.
  induction lines as [|l lines IH] using rev_ind.
  { cbn. split; [done|]. intros (before & line & after & Heq & _).
    by destruct before. }
  rewrite fold_left_app. cbn [fold_left].
  destruct (loadEnv_line_cases (fold_left loadEnv_line lines ∅) l)
    as [[-> Hno] | (k & v & Ha & ->)].
  - rewrite IH. split.
    + intros (before & line & after & -> & Hline & Hafter).
      exists before, line, (after ++ [l]). rewrite <- app_assoc.
      split; [done|]. split; [done|].
      intros later w [Hin | ->%list_elem_of_singleton]%elem_of_app; eauto.
    + intros (before & line & after & Heq & Hline & Hafter).
      destruct after as [|a after _] using rev_ind.
      * apply app_inj_tail in Heq as [_ ->]. by apply Hno in Hline.
      * rewrite app_comm_cons, app_assoc in Heq.
        apply app_inj_tail in Heq as [-> ->].
        exists before, line, after. split; [done|]. split; [done|].
        intros later w Hin. apply Hafter, elem_of_app. by left.
  - destruct (decide (k = key)) as [-> | Hne].
    + rewrite lookup_insert_eq. split.
      * intros [= ->]. exists lines, l, []. split; [done|]. split; [done|].
        by intros later w ?%elem_of_nil.
      * intros (before & line & after & Heq & Hline & Hafter).
        destruct after as [|a after _] using rev_ind.
        -- apply app_inj_tail in Heq as [_ ->].
           by destruct (assigns_inj _ _ _ _ _ Ha Hline) as [_ ->].
        -- rewrite app_comm_cons, app_assoc in Heq.
           apply app_inj_tail in Heq as [_ ->].
           exfalso. apply (Hafter a v); [|done]. apply elem_of_app. right. left.
    + rewrite lookup_insert_ne by done. rewrite IH. split.
      * intros (before & line & after & -> & Hline & Hafter).
        exists before, line, (after ++ [l]). rewrite <- app_assoc.
        split; [done|]. split; [done|].
        intros later w [Hin | ->%list_elem_of_singleton]%elem_of_app;
          [eauto|].
        intros Hl. by destruct (assigns_inj _ _ _ _ _ Ha Hl).
      * intros (before & line & after & Heq & Hline & Hafter).
        destruct after as [|a after _] using rev_ind.
        -- apply app_inj_tail in Heq as [_ ->].
           by destruct (assigns_inj _ _ _ _ _ Ha Hline).
        -- rewrite app_comm_cons, app_assoc in Heq.
           apply app_inj_tail in Heq as [-> ->].
           exists before, line, after. split; [done|]. split; [done|].
           intros later w Hin. apply Hafter, elem_of_app. by left.
Qed.

(** X17.  [loadEnv] gives a key the value of the last line that assigns it:
    the entry for [key] is [value] exactly when some line of the file is
    [key=value] (key free of [=], line not a [#] comment; nothing is trimmed)
    and no later line assigns that key.  A file that cannot be opened gives
    the empty map. *)
Theorem loadEnv_last_assignment_wins (text key value : string) :
  (loadEnv (Some text) !! key = Some value
   ↔ ∃ before line after,
       getlines "010" text = before ++ line :: after
       ∧ assigns line key value
       ∧ ∀ later w, later ∈ after → ¬ assigns later key w)
  ∧ loadEnv None !! key = None.
Proof. split; [apply loadEnv_lines_lookup|done]. Qed.

(** X18.  The API object is initialised exactly when the environment file
    can be read and one of its lines starts with [API_KEY=]; a line such as
    [API_KEY = ...], with a space before the [=], does not count. *)
Theorem StockApi_initialized_iff (file : option string) :
  m_isInitialized (StockApi_new file) = true
  ↔ ∃ text value,
      file = Some text ∧ "API_KEY=" +:+ value ∈ getlines "010" text.
Proof.
  unfold StockApi_new.
  assert (Hkey : ∀ line value,
             assigns line "API_KEY" value ↔ line = "API_KEY=" +:+ value).
  { intros line value. split; [by intros [-> _]|].
    intros ->. split; [done|]. split; [done|]. by intros rest. }
  destruct file as [text|]; cbn [loadEnv].
  2:{ rewrite lookup_empty. split; [done|]. by intros (? & ? & ? & _). }
  destruct (fold_left loadEnv_line (getlines "010" text) ∅ !! "API_KEY")
    as [key|] eqn:Hlook; cbn [m_isInitialized].
  - split; [intros _|done].
    apply loadEnv_lines_lookup in Hlook
      as (before & line & after & Heq & Hline & _).
    exists text, key. split; [done|]. rewrite Heq.
    apply Hkey in Hline as ->. apply elem_of_app. right. left.
  - split; [done|]. intros (text' & value & [= <-] & Hin). exfalso.
    assert (Hsome : ∃ v, fold_left loadEnv_line (getlines "010" text) ∅
                         !! "API_KEY" = Some v).
    { clear Hlook. revert Hin. generalize (getlines "010" text).
      intros lines. induction lines as [|l lines IH] using rev_ind.
      { by intros ?%elem_of_nil. }
      rewrite fold_left_app. cbn [fold_left].
      intros [Hin | Hl%list_elem_of_singleton]%elem_of_app.
      - destruct (IH Hin) as [v Hv].
        destruct (loadEnv_line_cases (fold_left loadEnv_line lines ∅) l)
          as [[-> _] | (k & w & _ & ->)]; [by exists v|].
        destruct (decide (k = "API_KEY")) as [-> | Hne].
        + exists w. apply lookup_insert_eq.
        + exists v. by rewrite lookup_insert_ne.
      - exists value. rewrite (loadEnv_line_assigns _ _ "API_KEY" value).
        + apply lookup_insert_eq.
        + by apply Hkey. }
    destruct Hsome as [v Hv]. congruence.
Qed.

(** * Properties of marking to market *)

Lemma current_prices_of_lookup (symbols : list string)
    (market_data : string → list Q) (s : string) :
  current_prices_of symbols market_data !! s
  = if decide (s ∈ symbols) then head (market_data s) else None.
Proof.
  unfold current_prices_of.
  assert (Hgen : ∀ prices : gmap string Q,
    fold_left (λ current_prices symbol,
                 match market_data symbol with
                 | close :: _ => <[symbol := close]> current_prices
                 | [] => current_prices
                 end) symbols prices !! s
    = if decide (s ∈ symbols)
      then match head (market_data s) with
           | Some close => Some close
           | None => prices !! s
           end
      else prices !! s).
  { induction symbols as [|k symbols IH]; intros prices; cbn [fold_left].
    { rewrite decide_False; [done|]. by intros ?%elem_of_nil. }
    rewrite IH. destruct (decide (s = k)) as [->|Hne].
    - rewrite (decide_True (P := k ∈ k :: symbols)) by left.
      destruct (market_data k) as [|close rest]; cbn [head].
      + by destruct (decide _).
      + rewrite lookup_insert_eq. by destruct (decide _).
    - assert (Hk : match market_data k with
                   | [] => prices
                   | close :: _ => <[k := close]> prices
                   end !! s = prices !! s).
      { destruct (market_data k); [done|]. by rewrite lookup_insert_ne. }
      rewrite Hk.
      destruct (decide (s ∈ symbols)) as [H1|H1],
               (decide (s ∈ k :: symbols)) as [H2|H2]; try done.
      + exfalso. apply H2. by right.
      + exfalso. apply elem_of_cons in H2 as [?|?]; done. }
  rewrite Hgen, lookup_empty. destruct (decide _); [|done].
  by destruct (head (market_data s)).
Qed.

Lemma mark_portfolio (prices : gmap string Q) (k : string)
    (e e' : TradingEngine) :
  portfolio e = portfolio e' →
  portfolio (mark prices k e) = portfolio (mark prices k e').
Proof.
  intros Heq. unfold mark. rewrite <- Heq.
  destruct (positions (portfolio e) !! k); [destruct (prices !! k)|];
    cbn [portfolio set_portfolio]; by rewrite <- ?Heq.
Qed.

Lemma marks_portfolio (prices : gmap string Q) (symbols : list string)
    (e e' : TradingEngine) :
  portfolio e = portfolio e' →
  portfolio (marks prices symbols e) = portfolio (marks prices symbols e').
Proof.
  unfold marks. revert e e'.
  induction symbols as [|k symbols IH]; intros e e' Heq; cbn [fold_left];
    [done|].
  by apply IH, mark_portfolio.
Qed.

Section Live.

Variable env : Env.

Lemma placeOrder_live (symbol side : string) (quantity : Q) (type : string)
    (price : Q) (e : TradingEngine) :
  mode e = LIVE →
  mode (placeOrder env symbol side quantity type price e).2 = LIVE
  ∧ portfolio (placeOrder env symbol side quantity type price e).2
    = portfolio e.
Proof.
  intros Hlive. unfold placeOrder.
  destruct (Qle_bool quantity 0); [done|].
  destruct (negb _); [done|].
  unfold generateOrderId.
  cbn [snd order_id mode set_orders set_order_counter]. by rewrite Hlive.
Qed.

Lemma applyStopLoss_live (position : Position) (price : Q)
    (e : TradingEngine) :
  mode e = LIVE →
  mode (applyStopLoss env position price e) = LIVE
  ∧ portfolio (applyStopLoss env position price e) = portfolio e.
Proof.
  intros Hlive. unfold applyStopLoss. destruct (Qle_bool _ _); [|done].
  by apply placeOrder_live.
Qed.

Lemma applyTakeProfit_live (position : Position) (price : Q)
    (e : TradingEngine) :
  mode e = LIVE →
  mode (applyTakeProfit env position price e) = LIVE
  ∧ portfolio (applyTakeProfit env position price e) = portfolio e.
Proof.
  intros Hlive. unfold applyTakeProfit. destruct (Qle_bool _ _); [|done].
  by apply placeOrder_live.
Qed.

(** In live mode an iteration always has a result: orders are recorded, not
    filled, and the portfolio is that of the marking. *)
Lemma updatePositionPrices_step_live (prices : gmap string Q)
    (e : TradingEngine) (k : string) :
  mode e = LIVE →
  ∃ e', updatePositionPrices_step env prices e k = Some e'
        ∧ mode e' = LIVE
        ∧ portfolio e' = portfolio (mark prices k e).
Proof.
  intros Hlive. unfold updatePositionPrices_step, mark.
  destruct (positions (portfolio e) !! k) as [p0|] eqn:Hlook;
    [|by exists e].
  destruct (prices !! k) as [price|]; [|by exists e].
  cbv zeta. fold (marked_at p0 price).
  set (e1 := set_portfolio _ e).
  assert (Hk1 : positions (portfolio e1) !! k = Some (marked_at p0 price)).
  { unfold e1. cbn [portfolio positions set_portfolio].
    apply lookup_insert_eq. }
  assert (Hm1 : mode e1 = LIVE) by exact Hlive.
  destruct (applyStopLoss_live (marked_at p0 price)
              (current_price (marked_at p0 price)) e1 Hm1)
    as [Hm2 Hp2].
  set (e2 := applyStopLoss env _ _ e1) in *.
  rewrite Hp2, Hk1.
  destruct (applyTakeProfit_live (marked_at p0 price)
              (current_price (marked_at p0 price)) e2 Hm2)
    as [Hm3 Hp3].
  set (e3 := applyTakeProfit env _ _ e2) in *.
  rewrite Hp3, Hp2, Hk1. exists e3. by rewrite Hp3, Hp2.
Qed.

Lemma updatePositionPrices_loop_live (prices : gmap string Q)
    (symbols : list string) (e : TradingEngine) :
  mode e = LIVE →
  ∃ e', updatePositionPrices_loop env prices symbols e = Some e'
        ∧ mode e' = LIVE
        ∧ portfolio e' = portfolio (marks prices symbols e).
Proof.
  revert e. induction symbols as [|k symbols IH]; intros e Hlive;
    cbn [updatePositionPrices_loop]; [by exists e|].
  destruct (updatePositionPrices_step_live prices e k Hlive)
    as (e1 & -> & Hm1 & Hp1).
  destruct (IH e1 Hm1) as (e' & -> & Hm' & Hp').
  exists e'. split; [done|]. split; [done|].
  rewrite Hp'. unfold marks at 2. cbn [fold_left].
  by apply marks_portfolio.
Qed.

Lemma updatePositionPrices_live (prices : gmap string Q)
    (e : TradingEngine) :
  mode e = LIVE →
  ∃ e', updatePositionPrices env prices e = Some e'
        ∧ (∀ s, positions (portfolio e') !! s
                = remarked prices s <$> positions (portfolio e) !! s)
        ∧ cash_balance (portfolio e') = cash_balance (portfolio e)
        ∧ total_value (portfolio e') = getEquity (portfolio e').
Proof.
  intros Hlive. unfold updatePositionPrices.
  destruct (updatePositionPrices_loop_live prices
              (sorted_keys (positions (portfolio e))) e Hlive)
    as (e1 & -> & _ & Hp1).
  eexists. split; [reflexivity|].
  cbn [portfolio set_portfolio positions cash_balance total_value].
  rewrite Hp1. split; [|split].
  - intros s. apply marks_all_lookup.
  - by destruct (marks_frame prices
                   (sorted_keys (positions (portfolio e))) e)
      as (_ & _ & _ & _ & _ & ->).
  - reflexivity.
Qed.

(** X19.  In live mode [updatePositionPrices] always has a result and sells
    nothing: every position stays, a position whose symbol is quoted is
    marked at the quote with P&L quantity times (quote less entry price),
    the others are as before, cash is unchanged and [total_value] is the
    equity at the new marks. *)
Theorem live_update_marks_positions (prices : gmap string Q)
    (e : TradingEngine) :
  mode e = LIVE →
  ∃ e', updatePositionPrices env prices e = Some e'
        ∧ (∀ s, positions (portfolio e') !! s
                = remarked prices s <$> positions (portfolio e) !! s)
        ∧ cash_balance (portfolio e') = cash_balance (portfolio e)
        ∧ total_value (portfolio e') = getEquity (portfolio e').
Proof.
  intros Hlive.
  destruct (updatePositionPrices_live prices e Hlive)
    as (e' & Hupdate & Hmarks & Hcash & Htotal).
  exists e'. by repeat split.
Qed.

(** X21.  [TradingSystemApp::updatePortfolio] quotes only the configured
    symbols that have a row in the database: whenever the call has a result,
    the position of any other symbol is as before, never marked, and so never
    reaches the stop-loss or the take-profit; in live mode the call has a
    result and the position of a configured symbol is marked at the close of
    the first row returned. *)
Theorem app_update_follows_configured_symbols (symbols : list string)
    (market_data : string → list Q) (e : TradingEngine) (s : string) :
  positions_keyed e →
  (∀ e', app_updatePortfolio env symbols market_data e = Some e' →
         s ∉ symbols ∨ market_data s = [] →
         positions (portfolio e') !! s = positions (portfolio e) !! s)
  ∧ (mode e = LIVE → s ∈ symbols →
     ∀ close rest, market_data s = close :: rest →
       ∃ e', app_updatePortfolio env symbols market_data e = Some e'
             ∧ positions (portfolio e') !! s
               = (λ pos, marked_at pos close)
                   <$> positions (portfolio e) !! s).
Proof.
  intros Hkeyed. unfold app_updatePortfolio. split.
  - intros e' Hupdate Hs. unfold updatePositionPrices in Hupdate.
    destruct (updatePositionPrices_loop _ _ _ _) as [e1|] eqn:Hloop;
      [|done].
    injection Hupdate as <-. cbn [portfolio set_portfolio positions].
    eapply updatePositionPrices_loop_unquoted; [done| |exact Hloop].
    rewrite current_prices_of_lookup.
    destruct (decide (s ∈ symbols)) as [Hin|]; [|done].
    destruct Hs as [Hnot | ->]; done.
  - intros Hlive Hin close rest Hrows.
    destruct (updatePositionPrices_live
                (current_prices_of symbols market_data) e Hlive)
      as (e' & Hupdate & Hmarks & _).
    exists e'. split; [done|]. rewrite Hmarks.
    unfold remarked. rewrite current_prices_of_lookup, decide_True by done.
    by rewrite Hrows.
Qed.

(** X26.  The thresholds are fractions of the entry price and
    [getPnlPercentage] is in percent: [applyStopLoss] places an order only
    for a position whose P&L percentage at the price is at or below minus
    a hundred times [stop_loss_percentage], [applyTakeProfit] only for one at
    or above a hundred times [take_profit_percentage]. *)
Theorem stop_orders_follow_pnl_percentage (position : Position) (price : Q)
    (e : TradingEngine) :
  (applyStopLoss env position price e ≠ e →
   getPnlPercentage (marked_at position price)
   <= - (stop_loss_percentage e * 100))
  ∧ (applyTakeProfit env position price e ≠ e →
     take_profit_percentage e * 100
     <= getPnlPercentage (marked_at position price)).
Proof.
  unfold applyStopLoss, applyTakeProfit, getPnlPercentage, marked_at.
  cbn [current_price entry_price]. split.
  - destruct (Qle_bool _ _) eqn:Hle; [|done]. intros _.
    apply Qle_bool_iff in Hle.
    assert (Heq : (price - entry_price position) / entry_price position * 100
                  == - ((entry_price position - price)
                        / entry_price position * 100)).
    { unfold Qdiv. ring. }
    rewrite Heq. apply Qopp_le_compat.
    apply Qmult_le_compat_r; [exact Hle|done].
  - destruct (Qle_bool _ _) eqn:Hle; [|done]. intros _.
    apply Qle_bool_iff in Hle.
    apply Qmult_le_compat_r; [exact Hle|done].
Qed.

End Live.

(** * The reader's queue *)

Section Reader.

Local Open Scope nat_scope.

Lemma find_take (c : ascii) (message : IPC.bytes) (pos : nat) :
  IPC.find c message = Some pos → c ∉ take pos message.
Proof.
  revert pos. induction message as [|x rest IH]; intros pos; cbn.
  - discriminate.
  - destruct (Ascii.eqb x c) eqn:Heq.
    + intros [= <-]. cbn. by intros ?%elem_of_nil.
    + destruct (IPC.find c rest) as [n|]; cbn; [|discriminate].
      intros [= <-]. cbn. intros [Hx|Hin]%elem_of_cons.
      * by rewrite <- Hx, Ascii.eqb_refl in Heq.
      * by apply (IH n).
Qed.

Lemma c_str_NUL_free (buffer : IPC.bytes) : IPC.NUL ∉ IPC.c_str buffer.
Proof.
  induction buffer as [|x rest IH]; cbn; [by intros ?%elem_of_nil|].
  destruct (Ascii.eqb x IPC.NUL) eqn:Heq; [by intros ?%elem_of_nil|].
  intros [Hx|Hin]%elem_of_cons; [|done].
  by rewrite <- Hx, Ascii.eqb_refl in Heq.
Qed.

Lemma split_loop_well_formed (fuel : nat) (message : IPC.bytes)
    (queue : list IPC.bytes) :
  IPC.NUL ∉ message → length message ≤ IPC.buffer_size - 1 →
  ∃ new, IPC.split_loop fuel message queue = queue ++ new
         ∧ Forall well_formed new.
Proof.
  revert message queue.
  induction fuel as [|fuel IH]; intros message queue Hnul Hlen; cbn.
  { exists []. by rewrite app_nil_r. }
  destruct (IPC.find IPC.newline message) as [pos|] eqn:Hfind.
  2:{ exists []. by rewrite app_nil_r. }
  pose proof (find_lt _ _ _ Hfind) as Hpos.
  pose proof (find_take _ _ _ Hfind) as Hfree.
  destruct (IH (drop (S pos) message)
              (match take pos message with
               | [] => queue
               | _ => queue ++ [take pos message]
               end)) as (new & -> & Hnew).
  { intros Hin. apply Hnul. by apply (subseteq_drop (S pos)). }
  { rewrite length_drop. lia. }
  destruct (take pos message) as [|b msg] eqn:Htake.
  { by exists new. }
  exists ((b :: msg) :: new). rewrite <- app_assoc. split; [done|].
  constructor; [|done]. rewrite <- Htake in *.
  split; [by rewrite Htake|]. split; [done|]. split.
  - intros Hin. apply Hnul. by apply (subseteq_take pos).
  - rewrite length_take. lia.
Qed.

(** X20.  The reader only ever appends to the queue, and what it appends is
    a message as the channel frames them: not empty, without newline, without
    NUL, and shorter than 4095 bytes, whatever bytes the FIFO holds. *)
Theorem reader_queues_well_formed_messages (fuel : nat)
    (ipc : IPC.IPCManager) (fifo : IPC.bytes) :
  ∃ new,
    IPC.message_queue (IPC.readerLoop fuel ipc fifo).1
    = IPC.message_queue ipc ++ new
    ∧ Forall well_formed new.
Proof.
  revert ipc fifo.
  induction fuel as [|fuel IH]; intros ipc fifo; cbn [IPC.readerLoop].
  { exists []. by rewrite app_nil_r. }
  destruct (IPC.running ipc).
  2:{ exists []. by rewrite app_nil_r. }
  destruct fifo as [|b fifo].
  { exists []. by rewrite app_nil_r. }
  unfold IPC.readerLoop_body, IPC.os_read.
  set (buffer := take (IPC.buffer_size - 1) (b :: fifo)).
  set (rest := drop (IPC.buffer_size - 1) (b :: fifo)).
  destruct (split_loop_well_formed (length (IPC.c_str buffer))
              (IPC.c_str buffer) (IPC.message_queue ipc))
    as (new1 & Hq1 & Hnew1).
  { apply c_str_NUL_free. }
  { etrans; [apply c_str_length|]. unfold buffer. rewrite length_take. lia. }
  match goal with
  | |- context [IPC.readerLoop fuel ?ipc1 rest] =>
      destruct (IH ipc1 rest) as (new2 & -> & Hnew2)
  end.
  cbn [IPC.message_queue]. rewrite Hq1.
  exists (new1 ++ new2). rewrite app_assoc. split; [done|].
  by apply Forall_app.
Qed.

End Reader.

(** * Properties of the configuration *)

Lemma getString_setString_eq (section key value : string)
    (cm : ConfigManager) (default_value : string) :
  getString section key default_value (setString section key value cm)
  = value.
Proof.
  unfold getString, setString, ConfigManager in *.
  by rewrite !lookup_insert_eq.
Qed.

(** X22.  After [setString] the entry written reads back as the value
    written, whatever was there before and whether or not the section
    existed, and every other entry of every section reads as before. *)
Theorem getString_after_setString (section key value : string)
    (cm : ConfigManager) (section' key' default_value : string) :
  getString section' key' default_value (setString section key value cm)
  = if decide (section' = section ∧ key' = key) then value
    else getString section' key' default_value cm.
Proof.
  unfold getString, setString, ConfigManager in *.
  destruct (decide (section' = section)) as [->|Hs].
  - rewrite lookup_insert_eq. destruct (decide (key' = key)) as [->|Hk].
    + rewrite lookup_insert_eq. by rewrite decide_True.
    + rewrite lookup_insert_ne by done.
      rewrite decide_False by (by intros [_ ?]).
      by destruct (cm !! section).
  - rewrite lookup_insert_ne by done.
    by rewrite decide_False by (by intros [? _]).
Qed.

Lemma tolower_idemp (c : ascii) : tolower (tolower c) = tolower c.
Proof.
  destruct c as [[] [] [] [] [] [] [] []]; vm_compute; reflexivity.
Qed.

Lemma transform_tolower_idemp (value : string) :
  transform tolower (transform tolower value) = transform tolower value.
Proof.
  induction value as [|c rest IH]; [done|].
  cbn [transform]. by rewrite tolower_idemp, IH.
Qed.

Lemma getBool_of_value (section key : string) (default_value : bool)
    (cm : ConfigManager) (value : string) :
  getString section key "" cm = value →
  getBool section key default_value cm
  = match value with
    | EmptyString => default_value
    | _ => let value := transform tolower value in
           String.eqb value "true" || String.eqb value "1"
           || String.eqb value "yes" || String.eqb value "on"
    end.
Proof. intros <-. reflexivity. Qed.

(** X23.  [getBool] gives back what [setBool] wrote, whatever the default,
    and it does not look at the case of the text it finds: a value and its
    lower-case form give the same answer. *)
Theorem getBool_after_setBool (section key : string) (value : bool)
    (cm : ConfigManager) (text : string) (default_value : bool) :
  getBool section key default_value (setBool section key value cm) = value
  ∧ getBool section key default_value
      (setString section key (transform tolower text) cm)
    = getBool section key default_value (setString section key text cm).
Proof.
  split.
  - rewrite (getBool_of_value _ _ _ _ (if value then "true" else "false")).
    + by destruct value.
    + apply getString_setString_eq.
  - rewrite (getBool_of_value _ _ _ _ (transform tolower text)),
            (getBool_of_value _ _ _ _ text);
      [|apply getString_setString_eq..].
    destruct text as [|c rest]; [done|].
    cbv zeta. rewrite transform_tolower_idemp. done.
Qed.

(** ** trim *)

Lemma blank_string_nil : blank_string "".
Proof. constructor. Qed.

Lemma blank_string_cons (c : ascii) (s : string) :
  is_blank c = true → blank_string s → blank_string (String c s).
Proof. intros Hc Hs. by constructor. Qed.

Lemma find_last_not_of_None (str : string) :
  find_last_not_of str = None → blank_string str.
Proof.
  induction str as [|c rest IH]; cbn [find_last_not_of]; intros Hnone.
  { apply blank_string_nil. }
  destruct (find_last_not_of rest); [done|].
  destruct (is_blank c) eqn:Hc; [|done].
  apply blank_string_cons; auto.
Qed.

(** What [find_last_not_of] finds: the part up to it ends with a character
    that is not blank, the part after it is blank. *)
Lemma find_last_not_of_Some (str : string) (pos : nat) :
  find_last_not_of str = Some pos →
  str = string_take (S pos) str +:+ string_drop (S pos) str
  ∧ blank_string (string_drop (S pos) str)
  ∧ ∃ c, last (list_ascii_of_string (string_take (S pos) str))
         = Some c ∧ is_blank c = false.
Proof.
  revert pos. induction str as [|c rest IH]; intros pos;
    cbn [find_last_not_of]; [done|].
  destruct (find_last_not_of rest) as [n|] eqn:Hrest.
  - intros [= <-]. destruct (IH n eq_refl) as (Heq & Hblank & d & Hlast & Hd).
    change (string_take (S (S n)) (String c rest))
      with (String c (string_take (S n) rest)).
    change (string_drop (S (S n)) (String c rest))
      with (string_drop (S n) rest).
    rewrite append_cons.
    split; [by rewrite <- Heq|]. split; [done|].
    exists d. split; [|done].
    change (list_ascii_of_string (String c (string_take (S n) rest)))
      with (c :: list_ascii_of_string (string_take (S n) rest)).
    destruct (list_ascii_of_string (string_take (S n) rest)); [done|].
    exact Hlast.
  - destruct (is_blank c) eqn:Hc; [done|]. intros [= <-].
    cbn [string_take string_drop]. rewrite append_cons, append_nil_l.
    split; [by destruct rest|]. split.
    + destruct rest; [apply blank_string_nil|].
      by apply find_last_not_of_None.
    + exists c. split; [|done]. by destruct rest.
Qed.

Lemma trim_cons_blank (c : ascii) (rest : string) :
  is_blank c = true → trim (String c rest) = trim rest.
Proof.
  intros Hc. unfold trim. cbn [find_first_not_of find_last_not_of].
  rewrite Hc.
  destruct (find_first_not_of rest) as [first|]; cbn [fmap option_fmap option_map];
    [|done].
  destruct (find_last_not_of rest) as [n|]; [|done].
  unfold substr. cbn [string_drop]. do 2 f_equal.
Qed.

Lemma trim_cons_not_blank (c : ascii) (rest : string) :
  is_blank c = false →
  ∃ pos, find_last_not_of (String c rest) = Some pos
         ∧ trim (String c rest) = string_take (S pos) (String c rest).
Proof.
  intros Hc. unfold trim. cbn [find_first_not_of]. rewrite Hc.
  destruct (find_last_not_of (String c rest)) as [pos|] eqn:Hlast.
  - exists pos. split; [done|]. unfold substr.
    replace (pos - 0 + 1)%nat with (S pos) by lia. done.
  - cbn [find_last_not_of] in Hlast.
    destruct (find_last_not_of rest); [done|]. by rewrite Hc in Hlast.
Qed.

(** X24.  [trim] cuts blanks (space, tab, line feed, carriage return) from
    the two ends and nothing else: the string is a blank lead, the result
    and a blank trail, and the result neither starts nor ends with a
    blank. *)
Theorem trim_cuts_blank_ends (str : string) :
  (∃ lead trail,
     str = lead +:+ trim str +:+ trail
     ∧ blank_string lead ∧ blank_string trail)
  ∧ (∀ c, head (list_ascii_of_string (trim str)) = Some c →
          is_blank c = false)
  ∧ (∀ c, last (list_ascii_of_string (trim str)) = Some c →
          is_blank c = false).
Proof.
  induction str as [|c rest IH].
  { split; [|done]. exists "", "". split; [done|].
    split; apply blank_string_nil. }
  destruct (is_blank c) eqn:Hc.
  - rewrite trim_cons_blank by done.
    destruct IH as ((lead & trail & Heq & Hlead & Htrail) & Hhead & Hlast).
    split; [|done]. exists (String c lead), trail.
    rewrite append_cons, <- Heq. split; [done|].
    split; [by apply blank_string_cons|done].
  - destruct (trim_cons_not_blank c rest Hc) as (pos & Hfind & ->).
    destruct (find_last_not_of_Some _ _ Hfind) as (Heq & Hblank & d & Hd & Hdb).
    split; [|split].
    + exists "", (string_drop (S pos) (String c rest)).
      rewrite append_nil_l. split; [done|].
      split; [apply blank_string_nil|done].
    + cbn [string_take list_ascii_of_string head]. by intros ? [= <-].
    + intros c' Hc'. rewrite Hd in Hc'. by injection Hc' as <-.
Qed.

(** ** Splitting *)

Lemma string_find_snoc (c x : ascii) (s : string) :
  string_find c s = None → Ascii.eqb x c = false →
  string_find c (s +:+ String x "") = None.
Proof.
  intros Hs Hx. induction s as [|y s IH].
  - rewrite append_nil_l. cbn [string_find]. by rewrite Hx.
  - rewrite append_cons. cbn [string_find] in *.
    destruct (Ascii.eqb y c); [done|].
    destruct (string_find c s); [done|]. by rewrite IH.
Qed.

Lemma getline_pieces_free (delimiter : ascii) (current text : string) :
  string_find delimiter current = None →
  Forall (λ piece, string_find delimiter piece = None)
         (getline_pieces delimiter current text).
Proof.
  revert current. induction text as [|x text IH]; intros current Hcur;
    cbn [getline_pieces].
  { destruct current; [constructor|]. by repeat constructor. }
  destruct (Ascii.eqb x delimiter) eqn:Hx.
  - constructor; [done|]. by apply IH.
  - apply IH. by apply string_find_snoc.
Qed.

Lemma terminated_cons (delimiter x y : ascii) (rest : string) :
  terminated delimiter (String x (String y rest))
  = String x (terminated delimiter (String y rest)).
Proof.
  unfold terminated.
  change (ends_with delimiter (String x (String y rest)))
    with (ends_with delimiter (String y rest)).
  destruct (ends_with delimiter (String y rest)); [done|].
  by rewrite append_cons.
Qed.

Lemma getline_pieces_delimited (delimiter : ascii) (current text : string) :
  delimited delimiter (getline_pieces delimiter current text)
  = match text with
    | EmptyString =>
        match current with
        | EmptyString => EmptyString
        | _ => current +:+ String delimiter EmptyString
        end
    | _ => current +:+ terminated delimiter text
    end.
Proof.
  revert current. induction text as [|x text IH]; intros current;
    cbn [getline_pieces].
  { by destruct current. }
  destruct (Ascii.eqb x delimiter) eqn:Hx.
  - apply Ascii.eqb_eq in Hx. subst x.
    change (delimited delimiter (current :: ?pieces))
      with (current +:+ String delimiter (delimited delimiter pieces)).
    rewrite IH. destruct text as [|y text].
    + unfold terminated. cbn [ends_with]. by rewrite Ascii.eqb_refl.
    + by rewrite append_nil_l, terminated_cons.
  - rewrite IH. destruct text as [|y text].
    + destruct (current +:+ String x "") eqn:Hcur; [by destruct current|].
      rewrite <- Hcur. unfold terminated. cbn [ends_with]. rewrite Hx.
      by rewrite append_assoc.
    + by rewrite terminated_cons, append_assoc.
Qed.

(** X25.  The configured symbols are the pieces of the configured text
    between commas: no symbol holds a comma, and the symbols, each followed
    by a comma, are the text with a comma added at its end unless it is
    empty or ends with one already.  So the text decides the symbols: empty
    pieces are kept, nothing is trimmed, and a comma at the end adds no
    symbol. *)
Theorem symbols_split_at_commas (cm : ConfigManager) :
  let text := getString "market_data" "symbols" "BTC,ETH,DOGE" cm in
  Forall (λ symbol, string_find "," symbol = None) (TradingConfig_symbols cm)
  ∧ delimited "," (TradingConfig_symbols cm) = terminated "," text.
Proof.
  cbv zeta. unfold TradingConfig_symbols, getlines. split.
  - by apply getline_pieces_free.
  - rewrite getline_pieces_delimited.
    by destruct (getString _ _ _ _).
Qed.

(** * The further properties at work *)

Lemma signal_acts_only_on_buy_or_sell_witness :
  0 < calculatePositionSize buy_signal engine0
  ∧ ((action buy_signal = "BUY"
      ∧ ∀ pos, positions (portfolio engine0) !! sig_symbol buy_signal = Some pos →
               pos_quantity pos <= 0)
     ∨ (action buy_signal = "SELL"
        ∧ ∃ pos, positions (portfolio engine0) !! sig_symbol buy_signal = Some pos
                 ∧ 0 < pos_quantity pos)).
Proof.
  apply (signal_acts_only_on_buy_or_sell env0 buy_signal engine0).
  intros H. apply (f_equal order_counter) in H. vm_compute in H.
  discriminate H.
Defined.

Lemma market_fill_is_unfavourable_witness :
  let filled := (simulateFill env0 buy_btc_1 100000 engine0).1 in
  order_status filled = "FILLED" ∧ 100000 < order_price filled.
Proof.
  destruct (market_fill_is_unfavourable env0 buy_btc_1 100000 engine0)
    as (Hstatus & Hbuy & _); [reflexivity|reflexivity|discriminate|].
  split; [exact Hstatus|apply Hbuy; reflexivity].
Defined.

Lemma unfilled_order_stays_pending_witness :
  let r := placeOrder env0 "BTC" "BUY" 0.01 "LIMIT" 99000 engine0 in
  pending_orders r.2 !! r.1
  = Some (mkOrder r.1 "BTC" "BUY" 0.01 99000 "LIMIT" "PENDING" 1700000000)
  ∧ filled_orders r.2 = filled_orders engine0
  ∧ portfolio r.2 = portfolio engine0
  ∧ peak_balance r.2 = peak_balance engine0.
Proof.
  apply (unfilled_order_stays_pending env0 "BTC" "BUY" 0.01 "LIMIT" 99000
           engine0).
  - right. discriminate.
  - vm_compute. discriminate.
Defined.

Lemma stop_loss_excludes_take_profit_witness :
  applyStopLoss env0 btc_position 97000 live_engine = live_engine
  ∨ applyTakeProfit env0 btc_position 97000 live_engine = live_engine.
Proof.
  apply (stop_loss_excludes_take_profit env0 btc_position 97000 live_engine).
  reflexivity.
Defined.

Lemma unquoted_position_untouched_witness :
  ∃ e',
    updatePositionPrices env0 aaa_quote paper_engine = Some e'
    ∧ positions (portfolio e') !! "BBB"
      = positions (portfolio paper_engine) !! "BBB".
Proof.
  exists (default paper_engine
            (updatePositionPrices env0 aaa_quote paper_engine)).
  split; [vm_compute; reflexivity|].
  apply (unquoted_position_untouched env0 aaa_quote paper_engine _ "BBB").
  - unfold positions_keyed. apply (bool_decide_unpack _).
    vm_compute. exact I.
  - reflexivity.
  - vm_compute. reflexivity.
Defined.


Lemma positions_stay_keyed_witness :
  ∃ e',
    updatePositionPrices env0 btc_drop live_engine = Some e'
    ∧ positions_keyed e'.
Proof.
  exists (default live_engine
            (updatePositionPrices env0 btc_drop live_engine)).
  split; [vm_compute; reflexivity|].
  destruct (positions_stay_keyed env0 live_engine)
    as (_ & _ & _ & _ & Hupdate).
  - unfold positions_keyed. apply (bool_decide_unpack _).
    vm_compute. exact I.
  - apply (Hupdate btc_drop). vm_compute. reflexivity.
Defined.


Lemma buy_of_new_symbol_keeps_equity_witness :
  getEquity
    (portfolio (placeOrder env0 "BTC" "BUY" 0.01 "MARKET" 100000 engine0).2)
  == getEquity (portfolio engine0).
Proof.
  apply (buy_of_new_symbol_keeps_equity env0 "BTC" 0.01 "MARKET" 100000
           engine0).
  reflexivity.
Defined.

Lemma closing_sale_equity_witness :
  getEquity (portfolio (updatePortfolio env0 sell_btc_all
                          engine_after_two_buys))
  == getEquity (portfolio engine_after_two_buys) + 0.08 * (110000 - 90000).
Proof.
  apply (closing_sale_equity env0 sell_btc_all btc_after_two_buys
           engine_after_two_buys).
  - reflexivity.
  - vm_compute. reflexivity.
  - vm_compute. reflexivity.
Defined.

Lemma buy_signal_never_overdraws_witness :
  0 <= cash_balance (portfolio (processTradingSignal env0 buy_signal engine0)).
Proof.
  apply (buy_signal_never_overdraws env0 buy_signal engine0).
  - discriminate.
  - vm_compute. discriminate.
  - vm_compute. discriminate.
Defined.

Lemma sell_signal_fills_at_fallback_quote_witness :
  let e' := processTradingSignal env0 sell_signal paper_engine in
  positions (portfolio e') !! "AAA" = None
  ∧ cash_balance (portfolio e')
    = cash_balance (portfolio paper_engine)
      + 49 * simulateSpread PaperTradingSimulator_new
               (simulateSlippage PaperTradingSimulator_new 100000 49 "SELL").
Proof.
  apply (sell_signal_fills_at_fallback_quote env0 sell_signal aaa_position
           paper_engine).
  - reflexivity.
  - reflexivity.
  - vm_compute. reflexivity.
  - vm_compute. reflexivity.
  - reflexivity.
  - vm_compute. reflexivity.
Defined.

Lemma fill_needs_market_or_met_limit_witness :
  order_type limit_buy_btc = "MARKET"
  ∨ (order_type limit_buy_btc = "LIMIT"
     ∧ uniform_draw env0 < 0.95
     ∧ ((order_side limit_buy_btc = "BUY"
         ∧ 99000 <= order_price limit_buy_btc)
        ∨ (order_side limit_buy_btc = "SELL"
           ∧ order_price limit_buy_btc <= 99000))).
Proof.
  apply (fill_needs_market_or_met_limit env0 limit_buy_btc 99000 engine0).
  intros H. apply (f_equal (λ r, order_status r.1)) in H.
  vm_compute in H. discriminate H.
Defined.

Lemma order_ids_differ_witness :
  (generateOrderId env0 engine_at_last_id).1
  ≠ (generateOrderId env0 engine0).1.
Proof.
  apply (order_ids_differ env0 engine_at_last_id engine0).
  - vm_compute. split; [discriminate|reflexivity].
  - vm_compute. split; [discriminate|reflexivity].
  - vm_compute. discriminate.
Defined.

Lemma getAllPositions_lists_holdings_witness :
  (∀ pos, pos ∈ getAllPositions paper_engine
          ↔ positions (portfolio paper_engine) !! pos_symbol pos = Some pos)
  ∧ Sorted String.le (pos_symbol <$> getAllPositions paper_engine)
  ∧ NoDup (pos_symbol <$> getAllPositions paper_engine)
  ∧ length (getAllPositions paper_engine)
    = size (positions (portfolio paper_engine)).
Proof.
  apply (getAllPositions_lists_holdings paper_engine).
  unfold positions_keyed. apply (bool_decide_unpack _).
  vm_compute. exact I.
Defined.

Lemma batch_arrives_in_order_witness :
  batch_trip [ping; []; pong] 3 = [ping; pong; []].
Proof.
  apply (batch_arrives_in_order [ping; []; pong] 1).
  - apply (bool_decide_unpack _). vm_compute. exact I.
  - apply Nat.ltb_lt. vm_compute. reflexivity.
Defined.

Lemma reader_keeps_last_read_witness :
  IPC.message_queue
    (read_chunks [ping; pong ++ [IPC.newline]] (IPC.start IPC.initialized))
  = [pong].
Proof.
  apply (reader_keeps_last_read [ping] pong (IPC.start IPC.initialized)).
  - apply (bool_decide_unpack _). vm_compute. exact I.
  - apply (bool_decide_unpack _). vm_compute. exact I.
  - apply (bool_decide_unpack _). vm_compute. exact I.
Defined.


Lemma live_update_marks_positions_witness :
  ∃ e',
    updatePositionPrices env0 btc_drop live_engine = Some e'
    ∧ (∀ s, positions (portfolio e') !! s
            = remarked btc_drop s <$> positions (portfolio live_engine) !! s)
    ∧ cash_balance (portfolio e') = cash_balance (portfolio live_engine)
    ∧ total_value (portfolio e') = getEquity (portfolio e').
Proof.
  apply (live_update_marks_positions env0 btc_drop live_engine).
  reflexivity.
Defined.


Lemma app_update_follows_configured_symbols_witness :
  ∃ e',
    app_updatePortfolio env0 ["BTC"; "ETH"] btc_rows live_engine = Some e'
    ∧ positions (portfolio e') !! "BTC"
      = (λ pos, marked_at pos 97000)
          <$> positions (portfolio live_engine) !! "BTC".
Proof.
  destruct (app_update_follows_configured_symbols env0 ["BTC"; "ETH"]
              btc_rows live_engine "BTC") as [_ Hmarked].
  - unfold positions_keyed. apply (bool_decide_unpack _).
    vm_compute. exact I.
  - apply (Hmarked eq_refl (list_elem_of_here _ _) 97000 [98000] eq_refl).
Defined.

